(** * pythonAnalysis: call-graph builder and taint analyzer

    A shallow embedding of [taintanalysis.py] and [callgraph.py].

    Python's [ast] nodes are one dynamically typed family dispatched on with
    [isinstance]; they are embedded as one inductive type [ast.node].  The two
    [ast.NodeVisitor] subclasses become structurally recursive functions that
    thread the visitor object's attributes through the traversal.  A Python
    exception ends the traversal; the attributes keep what was written before
    the [raise], so an aborted traversal still carries a state.

    Not modelled: [print] output, the interpreter's recursion limit, and
    node objects shared between two places of one tree ([ast.parse] builds
    none). *)

From Stdlib Require Import ZArith Ascii DecimalString DecimalPos DecimalZ.
From stdpp Require Import gmap strings list fin_maps.

Local Open Scope string_scope.
Local Open Scope list_scope.
Local Open Scope nat_scope.
Set Warnings "-register-all".

(** ** Exceptions and outcomes *)

Inductive exn := TypeError | AttributeError | KeyError.

(** Result of an expression that reads the state without writing it. *)
Inductive result (A : Type) :=
| Ok (a : A)
| Raise (e : exn).
Arguments Ok {A} a.
Arguments Raise {A} e.

(** Result of a statement sequence run on a mutable object of type [S]. *)
Inductive outcome (S : Type) :=
| Done (s : S)
| Abort (e : exn) (s : S).
Arguments Done {S} s.
Arguments Abort {S} e s.

Definition final {S} (o : outcome S) : S :=
  match o with Done s => s | Abort _ s => s end.

Definition then_ {S} (o : outcome S) (k : S → outcome S) : outcome S :=
  match o with
  | Done s => k s
  | Abort e s => Abort e s
  end.

Notation "o >>> k" := (then_ o k) (at level 61, left associativity).

(** [for x in l: f(x)] *)
Definition for_each {A S} (f : A → S → outcome S) : list A → S → outcome S :=
  fix go l s :=
    match l with
    | [] => Done s
    | x :: l' => f x s >>> go l'
    end.

(** ** Syntax trees *)

Module ast.

(** The node classes the two visitors test for, and [Other] for every
    other class.  Fields are in [_fields] order.  Leaf helper nodes
    (expression contexts, operators) are left out: no handler exists for
    them and they have no children.  A function's type parameters are left
    out as well. *)
Inductive node :=
| Module_ (body : list node)
| FunctionDef (name : string) (args : node) (body : list node)
              (decorator_list : list node) (returns : option node)
| Return (value : option node)
| Assign (targets : list node) (value : node)
| Expr (value : node)
| BinOp (left right : node)
| Dict (keys : list (option node)) (values : list node)
| Call (func : node) (args : list node) (keywords : list node) (lineno : Z)
| Str (s : string)
| Attribute (value : node) (attr : string)
| Subscript (value slice : node)
| Name (id : string)
| List (elts : list node)
| keyword (arg : option string) (value : node)
| Other (children : list node).

Definition opt_nodes (o : option node) : list node :=
  match o with Some n => [n] | None => [] end.

(** [ast.iter_child_nodes] *)
Definition iter_child_nodes (n : node) : list node :=
  match n with
  | Module_ body => body
  | FunctionDef _ args body decorator_list returns =>
      args :: body ++ decorator_list ++ opt_nodes returns
  | Return value => opt_nodes value
  | Assign targets value => targets ++ [value]
  | Expr value => [value]
  | BinOp lhs rhs => [lhs; rhs]
  | Dict keys values => concat (opt_nodes <$> keys) ++ values
  | Call func args keywords _ => func :: args ++ keywords
  | Str _ => []
  | Attribute value _ => [value]
  | Subscript value slice => [value; slice]
  | Name _ => []
  | List elts => elts
  | keyword _ value => [value]
  | Other children => children
  end.

(** Number of nodes of a tree. *)
Fixpoint size (n : node) : nat :=
  let opt o := match o with Some x => size x | None => 0 end in
  S match n with
    | Module_ body => sum_list_with size body
    | FunctionDef _ args body decorator_list returns =>
        size args + (sum_list_with size body
                     + (sum_list_with size decorator_list + opt returns))
    | Return value => opt value
    | Assign targets value => sum_list_with size targets + size value
    | Expr value => size value
    | BinOp lhs rhs => size lhs + size rhs
    | Dict keys values => sum_list_with opt keys + sum_list_with size values
    | Call func args keywords _ =>
        size func + (sum_list_with size args + sum_list_with size keywords)
    | Str _ => 0
    | Attribute value _ => size value
    | Subscript value slice => size value + size slice
    | Name _ => 0
    | List elts => sum_list_with size elts
    | keyword _ value => size value
    | Other children => sum_list_with size children
    end.

(** The loop of [ast.walk]: pop the left end of the queue, push the
    node's children on the right end, yield the node.  [fuel] bounds the
    number of iterations. *)
Fixpoint walk_queue (fuel : nat) (todo : list node) : list node :=
  match fuel with
  | 0 => []
  | S fuel' =>
      match todo with
      | [] => []
      | n :: rest => n :: walk_queue fuel' (rest ++ iter_child_nodes n)
      end
  end.

(** [ast.walk]: the nodes of the tree in breadth-first order. *)
Definition walk (n : node) : list node := walk_queue (size n) [n].

End ast.

(** ** Name resolution *)

(** [get_name(node, name)]: the function falls off its end, returning
    Python's [None], when [node] is neither a [Name] nor an [Attribute]. *)
Fixpoint get_name (n : ast.node) (name : list string) : option (list string) :=
  match n with
  | ast.Name id => Some (name ++ [id])%list
  | ast.Attribute value attr => get_name value (name ++ [attr])%list
  | _ => None
  end.

(** [".".join(get_name(func, [])[::-1])]; slicing [None] is a [TypeError]. *)
Definition callname_of (func : ast.node) : result string :=
  match get_name func [] with
  | Some name => Ok (String.concat "." (rev name))
  | None => Raise TypeError
  end.

(** [str(n)] for an integer *)
Definition str_int (n : Z) : string := NilZero.string_of_int (Z.to_int n).

(** ** The per-file taint analyzer *)

Module TaintAnalyzer.

(** The attributes of a [TaintAnalyzer] object. *)
Record t := mk {
  tainted_vars : gset string;
  tainted_collections : gmap string (gset string);
  tainted_functions : gmap string bool;
  issues : list string;
  taint_sources : gset string;
  sensitive_sinks : gset string
}.

(** [__init__] *)
Definition init : t := {|
  tainted_vars := ∅;
  tainted_collections := ∅;
  tainted_functions := ∅;
  issues := [];
  taint_sources := {[ "input"; "os.environ.get" ]};
  sensitive_sinks := {[ "eval"; "exec"; "os.system"; "subprocess.run" ]}
|}.

(** [self.tainted_vars.add(x)] *)
Definition add_tainted_var (x : string) (s : t) : t :=
  mk ({[ x ]} ∪ tainted_vars s) (tainted_collections s) (tainted_functions s)
     (issues s) (taint_sources s) (sensitive_sinks s).

(** [self.tainted_collections[x] = elements] *)
Definition set_tainted_collection (x : string) (elements : gset string) (s : t) : t :=
  mk (tainted_vars s) (<[x := elements]> (tainted_collections s))
     (tainted_functions s) (issues s) (taint_sources s) (sensitive_sinks s).

(** [self.tainted_functions[f] = True] *)
Definition set_tainted_function (f : string) (s : t) : t :=
  mk (tainted_vars s) (tainted_collections s) (<[f := true]> (tainted_functions s))
     (issues s) (taint_sources s) (sensitive_sinks s).

(** [self.issues.append(i)] *)
Definition append_issue (i : string) (s : t) : t :=
  mk (tainted_vars s) (tainted_collections s) (tainted_functions s)
     (issues s ++ [i])%list (taint_sources s) (sensitive_sinks s).

(** The text of an issue (the f-string of the sink rule). *)
Definition issue_text (callname : string) (lineno : Z) : string :=
  "Tainted data passed to sensitive function '" +:+ callname
    +:+ "' at line " +:+ str_int lineno.

(** [_is_tainted(node)] for a node.  A [Subscript] whose base is not a
    registered collection falls through to the tests below it, which it
    fails. *)
Fixpoint _is_tainted (s : t) (n : ast.node) : result bool :=
  match n with
  | ast.Name id => Ok (bool_decide (id ∈ tainted_vars s))
  | ast.Subscript value _ =>
      match value with
      | ast.Name collection_name =>
          Ok (bool_decide (collection_name ∈ dom (tainted_collections s)))
      | _ => Ok false
      end
  | ast.Call func _ _ _ =>
      match callname_of func with
      | Ok callname => Ok (bool_decide (callname ∈ dom (tainted_functions s)))
      | Raise e => Raise e
      end
  | ast.BinOp lhs rhs =>
      match _is_tainted s lhs with
      | Ok true => Ok true
      | Ok false => _is_tainted s rhs
      | Raise e => Raise e
      end
  | _ => Ok false
  end.

(** [_is_tainted(node.value)] where the value may be [None]. *)
Definition _is_tainted_opt (s : t) (o : option ast.node) : result bool :=
  match o with
  | Some n => _is_tainted s n
  | None => Ok false
  end.

(** The loop over [zip(node.keys, node.values)] of
    [_extract_tainted_elements].  A key of a tainted entry that is neither
    a string literal nor a [Name] has no [id] (so does the [None] key of a
    [**mapping] entry).  [ast.Str] is read as in the Python versions that
    have it: the class of string literals, [s] their value. *)
Fixpoint extract_dict (s : t) (keys : list (option ast.node))
    (values : list ast.node) (tainted_elements : gset string) : result (gset string) :=
  match keys, values with
  | key :: keys', value :: values' =>
      match value with
      | ast.Name id =>
          if bool_decide (id ∈ tainted_vars s) then
            match key with
            | Some (ast.Str k) => extract_dict s keys' values' ({[ k ]} ∪ tainted_elements)
            | Some (ast.Name k) => extract_dict s keys' values' ({[ k ]} ∪ tainted_elements)
            | _ => Raise AttributeError
            end
          else extract_dict s keys' values' tainted_elements
      | _ => extract_dict s keys' values' tainted_elements
      end
  | _, _ => Ok tainted_elements
  end.

(** The loop over [node.elts] of [_extract_tainted_elements]. *)
Definition extract_list (s : t) (elts : list ast.node) : gset string :=
  foldl (λ tainted_elements elt,
           match elt with
           | ast.Name id =>
               if bool_decide (id ∈ tainted_vars s)
               then {[ id ]} ∪ tainted_elements else tainted_elements
           | _ => tainted_elements
           end) ∅ elts.

Definition _extract_tainted_elements (s : t) (n : ast.node) : result (gset string) :=
  match n with
  | ast.List elts => Ok (extract_list s elts)
  | ast.Dict keys values => extract_dict s keys values ∅
  | _ => Ok ∅
  end.

(** [for target in targets: if isinstance(target, ast.Name):
       self.tainted_vars.add(target.id)] *)
Definition taint_targets (targets : list ast.node) : t → outcome t :=
  for_each (λ target s,
              match target with
              | ast.Name id => Done (add_tainted_var id s)
              | _ => Done s
              end) targets.

(** [if isinstance(node.parent, ast.Assign): <taint its targets>].  The
    root of a tree has no [parent] attribute. *)
Definition taint_parent_targets (parent : option ast.node) (s : t) : outcome t :=
  match parent with
  | None => Abort AttributeError s
  | Some (ast.Assign targets _) => taint_targets targets s
  | Some _ => Done s
  end.

(** The source rule of [visit_Call]. *)
Definition source_rule (parent : option ast.node) (callname : string) (s : t) : outcome t :=
  if bool_decide (callname ∈ taint_sources s)
  then taint_parent_targets parent s else Done s.

(** The sink rule of [visit_Call]: one issue per tainted positional
    argument. *)
Definition sink_rule (callname : string) (args : list ast.node) (lineno : Z)
    (s : t) : outcome t :=
  if bool_decide (callname ∈ sensitive_sinks s) then
    for_each (λ arg s,
                match _is_tainted s arg with
                | Ok true => Done (append_issue (issue_text callname lineno) s)
                | Ok false => Done s
                | Raise e => Abort e s
                end) args s
  else Done s.

(** The propagation rule of [visit_Call]. *)
Definition propagation_rule (parent : option ast.node) (callname : string) (s : t) : outcome t :=
  if bool_decide (callname ∈ dom (tainted_functions s))
  then taint_parent_targets parent s else Done s.

(** The two rules of [visit_Assign] that precede [generic_visit]. *)
Definition assign_rules (targets : list ast.node) (value : ast.node) (s : t) : outcome t :=
  (match value with
   | ast.Name id =>
       if bool_decide (id ∈ tainted_vars s) then taint_targets targets s else Done s
   | _ => Done s
   end) >>>
  (λ s,
     match value with
     | ast.List _ | ast.Dict _ _ =>
         for_each (λ target s,
                     match target with
                     | ast.Name id =>
                         match _extract_tainted_elements s value with
                         | Ok elements => Done (set_tainted_collection id elements s)
                         | Raise e => Abort e s
                         end
                     | _ => Done s
                     end) targets s
     | _ => Done s
     end).

(** The scan of [visit_FunctionDef] over [ast.walk(node)]. *)
Definition function_rule (name : string) (n : ast.node) : t → outcome t :=
  for_each (λ child s,
              match child with
              | ast.Return value =>
                  match _is_tainted_opt s value with
                  | Ok true => Done (set_tainted_function name s)
                  | Ok false => Done s
                  | Raise e => Abort e s
                  end
              | _ => Done s
              end) (ast.walk n).

(** The test of [visit_Return]; its only effect is a [print]. *)
Definition return_rule (value : option ast.node) (s : t) : outcome t :=
  match _is_tainted_opt s value with
  | Ok _ => Done s
  | Raise e => Abort e s
  end.

Definition visit_opt (visit : ast.node → t → outcome t) (o : option ast.node)
    (s : t) : outcome t :=
  match o with
  | Some n => visit n s
  | None => Done s
  end.

(** [NodeVisitor.visit], with the handlers of the class and
    [generic_visit] for every other node class.  [parent] is the node's
    [parent] attribute as set by [analyze]. *)
Fixpoint visit (parent : option ast.node) (n : ast.node) (s : t) : outcome t :=
  let self := Some n in
  match n with
  | ast.Call func args keywords lineno =>
      match callname_of func with
      | Raise e => Abort e s
      | Ok callname =>
          source_rule parent callname s >>>
          sink_rule callname args lineno >>>
          propagation_rule parent callname >>>
          visit self func >>>
          for_each (visit self) args >>>
          for_each (visit self) keywords
      end
  | ast.Assign targets value =>
      assign_rules targets value s >>>
      for_each (visit self) targets >>>
      visit self value
  | ast.FunctionDef name args body decorator_list returns =>
      function_rule name n s >>>
      visit self args >>>
      for_each (visit self) body >>>
      for_each (visit self) decorator_list >>>
      visit_opt (visit self) returns
  | ast.Return value =>
      return_rule value s >>>
      visit_opt (visit self) value
  | ast.Module_ body => for_each (visit self) body s
  | ast.Expr value => visit self value s
  | ast.BinOp lhs rhs => visit self lhs s >>> visit self rhs
  | ast.Dict keys values =>
      for_each (visit_opt (visit self)) keys s >>>
      for_each (visit self) values
  | ast.Str _ => Done s
  | ast.Attribute value _ => visit self value s
  | ast.Subscript value slice => visit self value s >>> visit self slice
  | ast.Name _ => Done s
  | ast.List elts => for_each (visit self) elts s
  | ast.keyword _ value => visit self value s
  | ast.Other children => for_each (visit self) children s
  end.

(** [analyze(tree)]: the parent links are the [parent] argument of
    [visit]; the method returns [self.issues]. *)
Definition analyze (tree : ast.node) (s : t) : outcome t := visit None tree s.

Arguments source_rule : simpl never.
Arguments sink_rule : simpl never.
Arguments propagation_rule : simpl never.
Arguments assign_rules : simpl never.
Arguments function_rule : simpl never.
Arguments return_rule : simpl never.

End TaintAnalyzer.

(** ** The multi-file taint aggregator *)

Module MultiFileTaintAnalyzer.

(** The attributes of a [MultiFileTaintAnalyzer] object. *)
Record t := mk {
  tainted_vars : gset string;
  sensitive_sinks : gset string;
  taint_sources : gset string;
  issues : list string;
  filewise_taint : gmap string (gset string)
}.

(** [__init__] *)
Definition init : t := {|
  tainted_vars := ∅;
  sensitive_sinks := {[ "eval"; "exec"; "os.system"; "subprocess.run"; "os.eval" ]};
  taint_sources := {[ "input"; "os.environ.get"; "sys.argv" ]};
  issues := [];
  filewise_taint := ∅
|}.

(** The three updates of [analyze_file] after the local pass. *)
Definition absorb (file_name : string) (local : TaintAnalyzer.t) (m : t) : t :=
  mk (tainted_vars m ∪ TaintAnalyzer.tainted_vars local)
     (sensitive_sinks m) (taint_sources m)
     (issues m ++ TaintAnalyzer.issues local)%list
     (<[file_name := TaintAnalyzer.tainted_vars local]> (filewise_taint m)).

(** [analyze_file(file_name, tree)]: an exception of the local pass
    leaves the aggregator as it was. *)
Definition analyze_file (file_name : string) (tree : ast.node) (m : t) : outcome t :=
  match TaintAnalyzer.analyze tree TaintAnalyzer.init with
  | Done local => Done (absorb file_name local m)
  | Abort e _ => Abort e m
  end.

(** [analyze_files(python_files_ast)]: the dict is given by its items in
    insertion order. *)
Definition analyze_files (python_files_ast : list (string * ast.node)) : t → outcome t :=
  for_each (λ '(file_name, tree), analyze_file file_name tree) python_files_ast.

Definition nl : string := String "010"%char "".

(** [get_report()].  Python enumerates the elements of a set in an order
    of its own; [order] stands for that enumeration. *)
Definition get_report (order : gset string → list string) (m : t) : string :=
  let report := nl +:+ "Global Tainted Variables:" +:+ nl
                +:+ String.concat ", " (order (tainted_vars m)) +:+ nl +:+ nl in
  let report := report +:+ "Issues:" +:+ nl in
  foldl (λ report issue, report +:+ issue +:+ nl) report (issues m).

End MultiFileTaintAnalyzer.

(** ** The per-file call-graph builder *)

Module CallGraphBuilder.

(** The attributes of a [CallGraphBuilder] object. *)
Record t := mk {
  call_graph : gmap string (gset string);
  current_function : option string
}.

(** [__init__] *)
Definition init : t := {| call_graph := ∅; current_function := None |}.

(** Truth value of [self.current_function]: [None] and the empty string
    are false. *)
Definition truthy (f : option string) : option string :=
  match f with
  | Some "" => None
  | Some name => Some name
  | None => None
  end.

(** [self.call_graph[f].add(callee)]; a missing key is a [KeyError]. *)
Definition add_callee (f callee : string) (s : t) : outcome t :=
  match call_graph s !! f with
  | Some calls => Done (mk (<[f := {[ callee ]} ∪ calls]> (call_graph s)) (current_function s))
  | None => Abort KeyError s
  end.

(** The statements of [visit_Call] before [generic_visit]. *)
Definition call_rule (func : ast.node) (s : t) : outcome t :=
  match truthy (current_function s) with
  | Some f =>
      match func with
      | ast.Name id => add_callee f id s
      | ast.Attribute _ attr => add_callee f attr s
      | _ => Done s
      end
  | None => Done s
  end.

(** The statements of [visit_FunctionDef] before [generic_visit]. *)
Definition enter_function (name : string) (s : t) : t :=
  mk (if bool_decide (name ∈ dom (call_graph s)) then call_graph s
      else <[name := ∅]> (call_graph s))
     (Some name).

(** [self.current_function = None] *)
Definition reset_function (s : t) : outcome t := Done (mk (call_graph s) None).

Definition visit_opt (visit : ast.node → t → outcome t) (o : option ast.node)
    (s : t) : outcome t :=
  match o with
  | Some n => visit n s
  | None => Done s
  end.

(** [NodeVisitor.visit] for this class. *)
Fixpoint visit (n : ast.node) (s : t) : outcome t :=
  match n with
  | ast.FunctionDef name args body decorator_list returns =>
      visit args (enter_function name s) >>>
      for_each visit body >>>
      for_each visit decorator_list >>>
      visit_opt visit returns >>>
      reset_function
  | ast.Call func args keywords _ =>
      call_rule func s >>>
      visit func >>>
      for_each visit args >>>
      for_each visit keywords
  | ast.Module_ body => for_each visit body s
  | ast.Return value => visit_opt visit value s
  | ast.Assign targets value => for_each visit targets s >>> visit value
  | ast.Expr value => visit value s
  | ast.BinOp lhs rhs => visit lhs s >>> visit rhs
  | ast.Dict keys values =>
      for_each (visit_opt visit) keys s >>> for_each visit values
  | ast.Str _ => Done s
  | ast.Attribute value _ => visit value s
  | ast.Subscript value slice => visit value s >>> visit slice
  | ast.Name _ => Done s
  | ast.List elts => for_each visit elts s
  | ast.keyword _ value => visit value s
  | ast.Other children => for_each visit children s
  end.

End CallGraphBuilder.

(** ** The multi-file call-graph aggregator *)

Module MultiFileCallGraphBuilder.

(** [self.global_call_graph] *)
Abbreviation t := (gmap string (gmap string (gset string))).

Definition init : t := ∅.

(** One round of the merge loop:
    [if file_name not in g: g[file_name] = {}] and then
    [g[file_name][function] = calls]. *)
Definition merge_function (file_name function : string) (calls : gset string) (g : t) : t :=
  <[file_name := <[function := calls]> (default ∅ (g !! file_name))]> g.

(** The merge loop over [builder.call_graph.items()].  The rounds write
    distinct keys of one inner dict, so their order does not show in the
    result ([merge_graph_spec] below). *)
Definition merge_graph (file_name : string) (call_graph : gmap string (gset string))
    (g : t) : t :=
  map_fold (merge_function file_name) g call_graph.

(** [build_call_graph(python_files_ast)], the dict given by its items in
    insertion order. *)
Definition build_call_graph (python_files_ast : list (string * ast.node)) : t → outcome t :=
  for_each (λ '(file_name, ast_tree) g,
              match CallGraphBuilder.visit ast_tree CallGraphBuilder.init with
              | Done builder =>
                  Done (merge_graph file_name (CallGraphBuilder.call_graph builder) g)
              | Abort e _ => Abort e g
              end) python_files_ast.

End MultiFileCallGraphBuilder.

(** * Properties *)

(** ** Trees: size, children, [ast.walk] *)

Lemma size_iter_child_nodes (n : ast.node) :
  ast.size n = S (sum_list_with ast.size (ast.iter_child_nodes n)).
Proof.
  destruct n as [| | [v|] | | | | keys values | | | | | | | |]; simpl;
    rewrite ?sum_list_with_app; simpl; try lia.
  - destruct returns; simpl; lia.
  - f_equal. f_equal.
    induction keys as [|[k|] keys IH]; simpl; rewrite ?sum_list_with_app; simpl;
      [done | f_equal; exact IH | exact IH].
Qed.

Lemma size_child (n c : ast.node) :
  c ∈ ast.iter_child_nodes n → ast.size c < ast.size n.
Proof.
  intros Hc. rewrite (size_iter_child_nodes n).
  apply (sum_list_with_in _ ast.size) in Hc. lia.
Qed.

(** Induction on a tree with the hypothesis on the node's children. *)
Lemma node_children_ind (P : ast.node → Prop) :
  (∀ n, (∀ c, c ∈ ast.iter_child_nodes n → P c) → P n) → ∀ n, P n.
Proof.
  intros step n. remember (ast.size n) as k eqn:Hk.
  revert n Hk. induction (lt_wf k) as [k _ IH]. intros n ->.
  apply step. intros c Hc. eapply IH; [|reflexivity]. by apply size_child.
Qed.

(** The fuel [ast.walk] starts with empties the queue: more fuel yields
    the same nodes, and every node of the tree is yielded. *)
Lemma walk_queue_fuel (fuel : nat) (todo : list ast.node) :
  sum_list_with ast.size todo ≤ fuel →
  ast.walk_queue fuel todo = ast.walk_queue (sum_list_with ast.size todo) todo.
Proof.
  revert todo. induction fuel as [|fuel IH]; intros todo Hle.
  - by replace (sum_list_with ast.size todo) with 0 by lia.
  - destruct todo as [|n rest]; [done|].
    simpl in *. rewrite (size_iter_child_nodes n) in *. simpl.
    f_equal. rewrite IH by (rewrite sum_list_with_app; lia).
    f_equal. rewrite sum_list_with_app. lia.
Qed.

Lemma walk_fuel (n : ast.node) (k : nat) :
  ast.walk_queue (ast.size n + k) [n] = ast.walk n.
Proof.
  unfold ast.walk. rewrite walk_queue_fuel; simpl; [f_equal; lia | lia].
Qed.

Lemma walk_queue_length (fuel : nat) (todo : list ast.node) :
  sum_list_with ast.size todo ≤ fuel →
  length (ast.walk_queue fuel todo) = sum_list_with ast.size todo.
Proof.
  revert todo. induction fuel as [|fuel IH]; intros todo Hle; [simpl; lia|].
  destruct todo as [|n rest]; [done|].
  simpl in *. rewrite (size_iter_child_nodes n) in *.
  rewrite IH; rewrite sum_list_with_app; lia.
Qed.

Lemma walk_length (n : ast.node) : length (ast.walk n) = ast.size n.
Proof. unfold ast.walk. rewrite walk_queue_length; simpl; lia. Qed.

(** ** Sequencing *)

Section sequencing.
Context {S : Type} (R : relation S) `{!PreOrder R}.

Lemma then_final (o : outcome S) (k : S → outcome S) (s : S) :
  R s (final o) → (∀ s', R s' (final (k s'))) → R s (final (o >>> k)).
Proof.
  intros Ho Hk. destruct o as [s1|e s1]; simpl in *; [|done].
  by etrans.
Qed.

Lemma for_each_final {A} (f : A → S → outcome S) (l : list A) (s : S) :
  (∀ x, x ∈ l → ∀ s', R s' (final (f x s'))) → R s (final (for_each f l s)).
Proof.
  revert s. induction l as [|x l IH]; intros s Hf; simpl; [done|].
  apply then_final; [apply Hf; left|].
  intros s'. apply IH. intros y Hy. apply Hf. by right.
Qed.

End sequencing.

Lemma for_each_app {A S} (f : A → S → outcome S) (l k : list A) (s : S) :
  for_each f (l ++ k) s = for_each f l s >>> for_each f k.
Proof.
  revert s. induction l as [|x l IH]; intros s; simpl; [done|].
  destruct (f x s) as [s1|e s1]; simpl; [apply IH|done].
Qed.

Lemma for_each_done {A S} (f : A → S → outcome S) (l : list A) (s : S) :
  (∀ x, x ∈ l → f x s = Done s) → for_each f l s = Done s.
Proof.
  induction l as [|x l IH]; intros Hf; simpl; [done|].
  rewrite Hf by left. simpl. apply IH. intros y Hy. apply Hf. by right.
Qed.

(** ** The taint traversal as a sequence of writes *)

(** The four statements of [TaintAnalyzer] that write an attribute. *)
Inductive taint_write : relation TaintAnalyzer.t :=
| write_var x s :
    taint_write s (TaintAnalyzer.add_tainted_var x s)
| write_collection x elements s :
    taint_write s (TaintAnalyzer.set_tainted_collection x elements s)
| write_function f s :
    taint_write s (TaintAnalyzer.set_tainted_function f s)
| write_issue callname lineno s :
    callname ∈ TaintAnalyzer.sensitive_sinks s →
    taint_write s (TaintAnalyzer.append_issue (TaintAnalyzer.issue_text callname lineno) s).

Definition taint_writes : relation TaintAnalyzer.t := rtc taint_write.

#[local] Instance taint_writes_preorder : PreOrder taint_writes.
Proof. unfold taint_writes. apply _. Qed.

Create HintDb writes discriminated.
#[local] Hint Resolve rtc_refl : writes.
#[local] Hint Extern 1 (taint_writes _ _) => reflexivity : writes.
#[local] Hint Extern 2 (taint_writes _ _) =>
  apply rtc_once; constructor; assumption : writes.

Ltac split_seq :=
  repeat match goal with
         | |- taint_writes _ (final (_ >>> _)) =>
             apply (then_final taint_writes); [|intros ?]
         end.

Lemma taint_targets_writes targets s :
  taint_writes s (final (TaintAnalyzer.taint_targets targets s)).
Proof.
  apply (for_each_final taint_writes). intros target _ s'.
  destruct target; simpl; auto with writes.
Qed.

Lemma taint_parent_targets_writes parent s :
  taint_writes s (final (TaintAnalyzer.taint_parent_targets parent s)).
Proof.
  destruct parent as [[]|]; simpl; auto using taint_targets_writes with writes.
Qed.

Lemma source_rule_writes parent callname s :
  taint_writes s (final (TaintAnalyzer.source_rule parent callname s)).
Proof.
  unfold TaintAnalyzer.source_rule. case_bool_decide; simpl;
    auto using taint_parent_targets_writes with writes.
Qed.

Lemma propagation_rule_writes parent callname s :
  taint_writes s (final (TaintAnalyzer.propagation_rule parent callname s)).
Proof.
  unfold TaintAnalyzer.propagation_rule. case_bool_decide; simpl;
    auto using taint_parent_targets_writes with writes.
Qed.

Lemma sink_rule_writes callname args lineno s :
  taint_writes s (final (TaintAnalyzer.sink_rule callname args lineno s)).
Proof.
  unfold TaintAnalyzer.sink_rule. case_bool_decide as Hsink; simpl; [|auto with writes].
  assert (∀ l s', TaintAnalyzer.sensitive_sinks s' = TaintAnalyzer.sensitive_sinks s →
    taint_writes s' (final (for_each (λ arg s0,
      match TaintAnalyzer._is_tainted s0 arg with
      | Ok true => Done (TaintAnalyzer.append_issue
                           (TaintAnalyzer.issue_text callname lineno) s0)
      | Ok false => Done s0
      | Raise e => Abort e s0
      end) l s'))) as Hloop; [|by apply Hloop].
  induction l as [|arg l IH]; intros s' Hs'; simpl; [auto with writes|].
  destruct (TaintAnalyzer._is_tainted s' arg) as [[]|e]; simpl; auto with writes.
  etrans; [|apply IH; done].
  apply rtc_once. constructor. by rewrite Hs'.
Qed.

Lemma assign_rules_writes targets value s :
  taint_writes s (final (TaintAnalyzer.assign_rules targets value s)).
Proof.
  unfold TaintAnalyzer.assign_rules. split_seq.
  - destruct value; simpl; auto with writes.
    case_bool_decide; auto using taint_targets_writes with writes.
  - destruct value; simpl; auto with writes;
      apply (for_each_final taint_writes); intros target _ s1;
      destruct target; simpl; auto with writes;
      match goal with
      | |- context [match ?r with Ok _ => _ | Raise _ => _ end] => destruct r
      end; simpl; auto with writes.
Qed.

Lemma function_rule_writes name n s :
  taint_writes s (final (TaintAnalyzer.function_rule name n s)).
Proof.
  apply (for_each_final taint_writes). intros child _ s'.
  destruct child; simpl; auto with writes.
  destruct (TaintAnalyzer._is_tainted_opt s' value) as [[]|e]; simpl; auto with writes.
Qed.

Lemma return_rule_writes value s :
  taint_writes s (final (TaintAnalyzer.return_rule value s)).
Proof.
  unfold TaintAnalyzer.return_rule.
  destruct (TaintAnalyzer._is_tainted_opt s value); simpl; auto with writes.
Qed.

Lemma elem_of_opt_nodes_concat (keys : list (option ast.node)) (k : ast.node) :
  Some k ∈ keys → k ∈ concat (ast.opt_nodes <$> keys).
Proof.
  induction keys as [|key keys IH]; intros Hk; [by apply elem_of_nil in Hk|].
  simpl. apply elem_of_app. apply elem_of_cons in Hk as [<-|Hk]; [left; left|auto].
Qed.

(** Every traversal, completed or aborted, is a sequence of writes from the
    state it started in. *)
Lemma visit_writes parent n s :
  taint_writes s (final (TaintAnalyzer.visit parent n s)).
Proof.
  revert parent s. induction n as [n IH] using node_children_ind.
  assert (∀ l, l ⊆ ast.iter_child_nodes n → ∀ s,
    taint_writes s (final (for_each (TaintAnalyzer.visit (Some n)) l s))) as IHs.
  { intros l Hl s. apply (for_each_final taint_writes). intros c Hc s'.
    apply IH. by apply Hl. }
  assert (∀ o, ast.opt_nodes o ⊆ ast.iter_child_nodes n → ∀ s,
    taint_writes s (final (TaintAnalyzer.visit_opt (TaintAnalyzer.visit (Some n)) o s)))
    as IHo.
  { intros [c|] Ho s; simpl; [apply IH, Ho; left|auto with writes]. }
  intros parent s. destruct n; simpl in *.
  - apply IHs. set_solver.
  - split_seq; [apply function_rule_writes|apply IH|apply IHs|apply IHs|apply IHo];
      set_solver.
  - split_seq; [apply return_rule_writes|apply IHo; set_solver].
  - split_seq; [apply assign_rules_writes|apply IHs|apply IH]; set_solver.
  - apply IH. set_solver.
  - split_seq; apply IH; set_solver.
  - split_seq; [|apply IHs; set_solver].
    apply (for_each_final taint_writes). intros [k|] Hk s'; simpl; [|auto with writes].
    apply IH. apply elem_of_app. left. by apply elem_of_opt_nodes_concat.
  - destruct (callname_of n) as [callname|e]; simpl; [|auto with writes].
    split_seq;
      [apply source_rule_writes|apply sink_rule_writes|apply propagation_rule_writes
      |apply IH|apply IHs|apply IHs]; set_solver.
  - auto with writes.
  - apply IH. set_solver.
  - split_seq; apply IH; set_solver.
  - auto with writes.
  - apply IHs. set_solver.
  - apply IH. set_solver.
  - apply IHs. set_solver.
Qed.

(** ** What a sequence of writes preserves *)

(** The growth order of the taint tables: the tainted variables, the
    tainted functions and the registered collections. *)
Definition taint_grows (s s' : TaintAnalyzer.t) : Prop :=
  TaintAnalyzer.tainted_vars s ⊆ TaintAnalyzer.tainted_vars s'
  ∧ dom (TaintAnalyzer.tainted_functions s) ⊆ dom (TaintAnalyzer.tainted_functions s')
  ∧ dom (TaintAnalyzer.tainted_collections s) ⊆ dom (TaintAnalyzer.tainted_collections s').

Lemma taint_writes_grows s s' : taint_writes s s' → taint_grows s s'.
Proof.
  induction 1 as [s|s s1 s' Hw _ IH]; [done|].
  destruct IH as (Hv & Hf & Hc).
  split_and!; (etrans; [|eassumption]); destruct Hw; simpl; set_solver.
Qed.

(** The text of an issue names a sink of [sinks] and a line number. *)
Definition sink_line_text (sinks : gset string) (i : string) : Prop :=
  ∃ callname lineno,
    callname ∈ sinks ∧ i = TaintAnalyzer.issue_text callname lineno.


(** ** The aggregated issues and the report *)







(** The issues the aggregator holds grow by sink-and-line texts. *)
Definition issues_extended (m m' : MultiFileTaintAnalyzer.t) : Prop :=
  ∃ new, MultiFileTaintAnalyzer.issues m' = MultiFileTaintAnalyzer.issues m ++ new
         ∧ Forall (sink_line_text (TaintAnalyzer.sensitive_sinks TaintAnalyzer.init)) new.

#[local] Instance issues_extended_preorder : PreOrder issues_extended.
Proof.
  split.
  - intros m. exists []. by rewrite app_nil_r.
  - intros m1 m2 m3 (n1 & H1 & F1) (n2 & H2 & F2). exists (n1 ++ n2).
    split; [by rewrite H2, H1, app_assoc|by apply Forall_app].
Qed.



(** ** The call-graph builder never raises *)

Section completes.
Context {S : Type} (I : S → Prop).

(** The statements run to their end, in a state that satisfies [I]. *)
Definition completes (o : outcome S) : Prop := ∃ s, o = Done s ∧ I s.

Lemma then_completes (o : outcome S) (k : S → outcome S) :
  completes o → (∀ s, I s → completes (k s)) → completes (o >>> k).
Proof. intros (s & -> & Hs) Hk. simpl. by apply Hk. Qed.

Lemma for_each_completes {A} (f : A → S → outcome S) (l : list A) (s : S) :
  I s → (∀ x, x ∈ l → ∀ s', I s' → completes (f x s')) →
  completes (for_each f l s).
Proof.
  revert s. induction l as [|x l IH]; intros s Hs Hf; simpl; [by exists s|].
  apply then_completes; [apply Hf; [left|done]|].
  intros s' Hs'. apply IH; [done|]. intros y Hy. apply Hf. by right.
Qed.

End completes.

(** The function a call would be attributed to has its entry in the graph. *)
Definition registered (s : CallGraphBuilder.t) : Prop :=
  ∀ f, CallGraphBuilder.current_function s = Some f →
       f ∈ dom (CallGraphBuilder.call_graph s).

Lemma truthy_Some f name :
  CallGraphBuilder.truthy f = Some name → f = Some name.
Proof. destruct f as [[|a f]|]; simpl; congruence. Qed.

Lemma add_callee_completes f callee s :
  registered s → CallGraphBuilder.current_function s = Some f →
  completes registered (CallGraphBuilder.add_callee f callee s).
Proof.
  intros Hreg Hf. unfold CallGraphBuilder.add_callee.
  pose proof (Hreg f Hf) as Hdom. apply elem_of_dom in Hdom as [calls Hcalls].
  rewrite Hcalls. eexists; split; [done|].
  intros f' Hf'. simpl in *. rewrite dom_insert_L. specialize (Hreg f' Hf'). set_solver.
Qed.

Lemma call_rule_completes func s :
  registered s → completes registered (CallGraphBuilder.call_rule func s).
Proof.
  intros Hreg. unfold CallGraphBuilder.call_rule.
  destruct (CallGraphBuilder.truthy _) as [f|] eqn:Hf; [|by exists s].
  apply truthy_Some in Hf.
  destruct func; try (by exists s); by apply add_callee_completes.
Qed.

Lemma enter_function_registered name s :
  registered (CallGraphBuilder.enter_function name s).
Proof.
  intros f [= <-]. simpl. case_bool_decide; [done|]. rewrite dom_insert_L. set_solver.
Qed.

Lemma reset_function_completes s :
  completes registered (CallGraphBuilder.reset_function s).
Proof. eexists; split; [done|]. by intros f. Qed.

Ltac split_completes :=
  repeat match goal with
         | |- completes _ (_ >>> _) => apply then_completes; [|intros ? ?]
         end.

Lemma cg_visit_completes n s :
  registered s → completes registered (CallGraphBuilder.visit n s).
Proof.
  revert s. induction n as [n IH] using node_children_ind.
  assert (∀ l, l ⊆ ast.iter_child_nodes n → ∀ s, registered s →
    completes registered (for_each CallGraphBuilder.visit l s)) as IHs.
  { intros l Hl s Hs. apply for_each_completes; [done|]. intros c Hc s' Hs'.
    apply IH; [by apply Hl|done]. }
  assert (∀ o, ast.opt_nodes o ⊆ ast.iter_child_nodes n → ∀ s, registered s →
    completes registered (CallGraphBuilder.visit_opt CallGraphBuilder.visit o s)) as IHo.
  { intros [c|] Ho s Hs; simpl; [apply IH; [apply Ho; left|done]|by exists s]. }
  intros s Hs. destruct n; simpl in *.
  - apply IHs; [set_solver|done].
  - split_completes;
      [apply IH; [|apply enter_function_registered]|apply IHs|apply IHs|apply IHo
      |apply reset_function_completes]; first [done|set_solver].
  - apply IHo; [set_solver|done].
  - split_completes; [apply IHs|apply IH]; first [done|set_solver].
  - apply IH; [set_solver|done].
  - split_completes; apply IH; first [done|set_solver].
  - split_completes; [|apply IHs; first [done|set_solver]].
    apply for_each_completes; [done|]. intros [k|] Hk s' Hs'; simpl; [|by exists s'].
    apply IH; [|done]. apply elem_of_app. left. by apply elem_of_opt_nodes_concat.
  - split_completes; [by apply call_rule_completes|apply IH|apply IHs|apply IHs];
      first [done|set_solver].
  - by exists s.
  - apply IH; [set_solver|done].
  - split_completes; apply IH; first [done|set_solver].
  - by exists s.
  - apply IHs; [set_solver|done].
  - apply IH; [set_solver|done].
  - apply IHs; [set_solver|done].
Qed.

(** The call graph of one file. *)
Definition file_call_graph (tree : ast.node) : gmap string (gset string) :=
  CallGraphBuilder.call_graph (final (CallGraphBuilder.visit tree CallGraphBuilder.init)).

Lemma cg_visit_init tree :
  ∃ builder, CallGraphBuilder.visit tree CallGraphBuilder.init = Done builder
             ∧ CallGraphBuilder.call_graph builder = file_call_graph tree.
Proof.
  destruct (cg_visit_completes tree CallGraphBuilder.init) as (builder & Hb & _);
    [by intros f|].
  exists builder. unfold file_call_graph. by rewrite Hb.
Qed.

(** ** Merging per-file graphs *)

(** The merge loop writes the file's functions over the entries the file
    already has; a file without functions leaves the global graph as it is. *)
Lemma merge_graph_spec file_name (call_graph : gmap string (gset string))
    (g : MultiFileCallGraphBuilder.t) :
  MultiFileCallGraphBuilder.merge_graph file_name call_graph g
  = if decide (call_graph = ∅) then g
    else <[file_name := call_graph ∪ default ∅ (g !! file_name)]> g.
Proof.
  unfold MultiFileCallGraphBuilder.merge_graph.
  refine (map_fold_weak_ind (λ r (m : gmap string (gset string)),
    r = if decide (m = ∅) then g else <[file_name := m ∪ default ∅ (g !! file_name)]> g)
    (MultiFileCallGraphBuilder.merge_function file_name) g _ _ call_graph).
  { by rewrite decide_True. }
  intros function calls m r Hfresh ->.
  rewrite (decide_False (P := <[function := calls]> m = ∅))
    by apply insert_non_empty.
  unfold MultiFileCallGraphBuilder.merge_function. destruct (decide (m = ∅)) as [->|Hm].
  - by rewrite insert_empty, <- insert_union_singleton_l.
  - rewrite lookup_insert_eq. simpl. rewrite insert_insert_eq.
    by rewrite insert_union_l.
Qed.

Lemma merge_graph_comm file1 file2 (c1 c2 : gmap string (gset string))
    (g : MultiFileCallGraphBuilder.t) :
  file1 ≠ file2 →
  MultiFileCallGraphBuilder.merge_graph file1 c1
    (MultiFileCallGraphBuilder.merge_graph file2 c2 g)
  = MultiFileCallGraphBuilder.merge_graph file2 c2
      (MultiFileCallGraphBuilder.merge_graph file1 c1 g).
Proof.
  intros Hne. rewrite !merge_graph_spec.
  destruct (decide (c1 = ∅)), (decide (c2 = ∅)); try done.
  rewrite !lookup_insert_ne by done. by apply insert_insert_ne.
Qed.

(** The loop of [build_call_graph] as a left fold of merges. *)
Definition merge_files (files : list (string * ast.node))
    (g : MultiFileCallGraphBuilder.t) : MultiFileCallGraphBuilder.t :=
  foldl (λ g '(file_name, tree),
           MultiFileCallGraphBuilder.merge_graph file_name (file_call_graph tree) g)
        g files.

Lemma build_call_graph_done files g :
  MultiFileCallGraphBuilder.build_call_graph files g = Done (merge_files files g).
Proof.
  revert g. induction files as [|[file_name tree] files IH]; intros g; [done|].
  unfold MultiFileCallGraphBuilder.build_call_graph in *. simpl.
  destruct (cg_visit_init tree) as (builder & -> & ->). simpl. apply IH.
Qed.

Lemma merge_files_not_in file_name c files g :
  file_name ∉ files.*1 →
  merge_files files (MultiFileCallGraphBuilder.merge_graph file_name c g)
  = MultiFileCallGraphBuilder.merge_graph file_name c (merge_files files g).
Proof.
  revert g. induction files as [|[file' tree] files IH]; intros g Hnot; [done|].
  simpl in *. apply not_elem_of_cons in Hnot as [Hne Hnot].
  rewrite merge_graph_comm by done. by apply IH.
Qed.

Lemma merge_files_permutation files files' g :
  NoDup files.*1 → files ≡ₚ files' → merge_files files g = merge_files files' g.
Proof.
  intros Hdup Hperm. revert g Hdup.
  induction Hperm as [|[f t] l l' Hperm IH|[f1 t1] [f2 t2] l|l l' l'' H1 IH1 H2 IH2];
    intros g Hdup.
  - done.
  - simpl. apply IH. by apply NoDup_cons in Hdup as [_ ?].
  - simpl in *. apply NoDup_cons in Hdup as [Hne _].
    rewrite merge_graph_comm; [done|]. set_solver.
  - rewrite IH1 by done. apply IH2. by rewrite <- H1.
Qed.

(** * The claims *)

(** ** Name resolution (C1) *)

(** [", ".join(xs)]: a method call on a string literal. *)
Definition join_call : ast.node :=
  ast.Module_
    [ast.Expr (ast.Call (ast.Attribute (ast.Str ", ") "join") [ast.Name "xs"] [] 1)].

(** C1: name resolution does not return a string for every call target.
    When the base of the attribute chain is neither a [Name] nor an
    [Attribute], [get_name] falls off its end and returns [None]; the
    caller slices it, which raises [TypeError].  So visiting a call whose
    target hangs off a call result, a literal or a subscript aborts the
    pass, and so does the analysis of a file that contains
    [", ".join(xs)]. *)
Theorem get_name_unresolved_base_raises :
  (∀ parent f a k l attr args keywords lineno s,
      TaintAnalyzer.visit parent
        (ast.Call (ast.Attribute (ast.Call f a k l) attr) args keywords lineno) s
      = Abort TypeError s)
  ∧ (∀ parent literal attr args keywords lineno s,
      TaintAnalyzer.visit parent
        (ast.Call (ast.Attribute (ast.Str literal) attr) args keywords lineno) s
      = Abort TypeError s)
  ∧ (∀ parent value slice attr args keywords lineno s,
      TaintAnalyzer.visit parent
        (ast.Call (ast.Attribute (ast.Subscript value slice) attr) args keywords lineno) s
      = Abort TypeError s)
  ∧ get_name (ast.Attribute (ast.Str ", ") "join") [] = None
  ∧ TaintAnalyzer.analyze join_call TaintAnalyzer.init
    = Abort TypeError TaintAnalyzer.init.
Proof. by split_and!. Qed.

(** ** The text of an issue *)

(** [str(n)] is the decimal numeral of [n]: read back as a decimal integer
    it gives [n]. *)
Lemma str_int_decimal (n : Z) :
  option_map Z.of_int (NilZero.int_of_string (str_int n)) = Some n.
Proof.
  unfold str_int. rewrite NilZero.isi.
  - simpl. f_equal. apply DecimalZ.of_to.
  - destruct n as [|q|q]; simpl; try done. intros [= Hq].
    by apply DecimalPos.Unsigned.to_uint_nonnil in Hq.
  - destruct n as [|q|q]; simpl; try done. intros [= Hq].
    by apply DecimalPos.Unsigned.to_uint_nonnil in Hq.
Qed.

(** ** The minimal source-to-sink scenario (C2) *)

(** [x = input()] on line [l1], [eval(x)] on line [l2]. *)
Definition source_to_sink (l1 l2 : Z) : ast.node :=
  ast.Module_
    [ast.Assign [ast.Name "x"] (ast.Call (ast.Name "input") [] [] l1);
     ast.Expr (ast.Call (ast.Name "eval") [ast.Name "x"] [] l2)].

Lemma source_to_sink_local (l1 l2 : Z) :
  ∃ s, TaintAnalyzer.analyze (source_to_sink l1 l2) TaintAnalyzer.init = Done s
       ∧ TaintAnalyzer.issues s = [TaintAnalyzer.issue_text "eval" l2]
       ∧ TaintAnalyzer.tainted_vars s = {[ "x" ]}.
Proof.
  eexists. split; [vm_compute; reflexivity|]. split; vm_compute; reflexivity.
Qed.

(** C2: for the file [x = input()] followed by [eval(x)], the per-file
    pass completes with exactly one issue, the text that names the sink
    [eval] and, as a decimal numeral, the line of the [eval] call; its
    tainted variables are exactly [x]; the aggregator run on that one file
    reports the same.  With the two statements on lines 1 and 2 the issue
    reads [Tainted data passed to sensitive function 'eval' at line 2]. *)
Theorem source_to_sink_one_issue (l1 l2 : Z) (file_name : string) :
  (∃ s, TaintAnalyzer.analyze (source_to_sink l1 l2) TaintAnalyzer.init = Done s
        ∧ TaintAnalyzer.issues s
          = ["Tainted data passed to sensitive function 'eval' at line " +:+ str_int l2]
        ∧ TaintAnalyzer.tainted_vars s = {[ "x" ]})
  ∧ (∃ m, MultiFileTaintAnalyzer.analyze_files
            [(file_name, source_to_sink l1 l2)] MultiFileTaintAnalyzer.init = Done m
          ∧ MultiFileTaintAnalyzer.issues m
            = ["Tainted data passed to sensitive function 'eval' at line " +:+ str_int l2]
          ∧ "x" ∈ MultiFileTaintAnalyzer.tainted_vars m
          ∧ MultiFileTaintAnalyzer.filewise_taint m !! file_name = Some {[ "x" ]})
  ∧ option_map Z.of_int (NilZero.int_of_string (str_int l2)) = Some l2
  ∧ TaintAnalyzer.issues
      (final (TaintAnalyzer.analyze (source_to_sink 1 2) TaintAnalyzer.init))
    = ["Tainted data passed to sensitive function 'eval' at line 2"].
Proof.
  destruct (source_to_sink_local l1 l2) as (s & Hs & Hi & Hv).
  split; [by exists s|]. split; [|split; [apply str_int_decimal|reflexivity]].
  exists (MultiFileTaintAnalyzer.absorb file_name s MultiFileTaintAnalyzer.init). split.
  - unfold MultiFileTaintAnalyzer.analyze_files. simpl.
    unfold MultiFileTaintAnalyzer.analyze_file. by rewrite Hs.
  - unfold MultiFileTaintAnalyzer.absorb. simpl. rewrite Hi, Hv.
    split_and!; [done|set_solver|apply lookup_insert_eq].
Qed.

(** ** Subscripts on registered collections (C3) *)

(** [lst = ["safe"]] followed by [eval(lst[0])]; the index is a constant,
    a node of no class the analyzer tests for. *)
Definition safe_list : ast.node :=
  ast.Module_
    [ast.Assign [ast.Name "lst"] (ast.List [ast.Str "safe"]);
     ast.Expr (ast.Call (ast.Name "eval")
                 [ast.Subscript (ast.Name "lst") (ast.Other [])] [] 2)].

(** C3: [_is_tainted] tests whether the base identifier is a key of the
    collections table and does not look at the recorded element set: a
    subscript on a collection whose recorded set is empty tests tainted,
    and the file [lst = ["safe"]; eval(lst[0])], which has no taint source,
    gets an issue. *)
Theorem subscript_on_empty_collection_tainted :
  (∀ s x slice,
      TaintAnalyzer._is_tainted (TaintAnalyzer.set_tainted_collection x ∅ s)
        (ast.Subscript (ast.Name x) slice) = Ok true)
  ∧ ∃ s, TaintAnalyzer.analyze safe_list TaintAnalyzer.init = Done s
         ∧ TaintAnalyzer.tainted_collections s = {[ "lst" := ∅ ]}
         ∧ TaintAnalyzer.tainted_vars s = ∅
         ∧ TaintAnalyzer.issues s = [TaintAnalyzer.issue_text "eval" 2].
Proof.
  split.
  - intros s x slice. simpl. rewrite dom_insert_L. f_equal.
    apply bool_decide_eq_true. set_solver.
  - eexists. split; [vm_compute; reflexivity|]. split_and!; vm_compute; reflexivity.
Qed.

(** ** Nested function definitions in the call graph (C4) *)

(** [def outer():] with body [def inner(): helper()] and then [after()]. *)
Definition nested_functions : ast.node :=
  ast.Module_
    [ast.FunctionDef "outer" (ast.Other [])
       [ast.FunctionDef "inner" (ast.Other [])
          [ast.Expr (ast.Call (ast.Name "helper") [] [] 3)] [] None;
        ast.Expr (ast.Call (ast.Name "after") [] [] 4)]
       [] None].

(** C4: [visit_FunctionDef] ends with [self.current_function = None]
    instead of restoring the enclosing function.  [helper] is recorded for
    [inner] and not for [outer], but the call of [after] that follows the
    nested definition in [outer]'s body is attributed to no function at
    all: [outer]'s callee set stays empty. *)
Theorem nested_definition_resets_context :
  (∀ outer inner args body decorator_list returns s,
      ∃ s', CallGraphBuilder.visit
              (ast.FunctionDef inner args body decorator_list returns)
              (CallGraphBuilder.enter_function outer s) = Done s'
            ∧ CallGraphBuilder.current_function s' = None)
  ∧ ∃ builder,
      CallGraphBuilder.visit nested_functions CallGraphBuilder.init = Done builder
      ∧ CallGraphBuilder.call_graph builder
        = {[ "outer" := ∅; "inner" := {[ "helper" ]} ]}
      ∧ CallGraphBuilder.current_function builder = None.
Proof.
  split.
  - intros outer inner args body decorator_list returns s.
    destruct (cg_visit_completes
                (ast.FunctionDef inner args body decorator_list returns)
                (CallGraphBuilder.enter_function outer s)) as (s' & Hs' & _);
      [apply enter_function_registered|].
    exists s'. split; [done|]. simpl in Hs'.
    match type of Hs' with
    | ?o >>> CallGraphBuilder.reset_function = _ => destruct o; simpl in Hs'
    end; [by injection Hs' as <-|done].
  - eexists. split; [vm_compute; reflexivity|]. split; vm_compute; reflexivity.
Qed.

(** ** Taint across files (C5) *)

(** File A: [s = input()] and then [def leak(): return s]. *)
Definition file_a : list ast.node :=
  [ast.Assign [ast.Name "s"] (ast.Call (ast.Name "input") [] [] 1);
   ast.FunctionDef "leak" (ast.Other []) [ast.Return (Some (ast.Name "s"))] [] None].

(** File B: [x = leak()] on line [l], [eval(x)] on the next line. *)
Definition file_b (l : Z) : list ast.node :=
  [ast.Assign [ast.Name "x"] (ast.Call (ast.Name "leak") [] [] l);
   ast.Expr (ast.Call (ast.Name "eval") [ast.Name "x"] [] (l + 1))].

(** C5 as stated fails: with file A processed before file B, [leak] is a
    tainted function of A's pass, and the run completes without any issue
    and without tainting [x]. *)
Lemma cross_file_no_issue :
  "leak" ∈ dom (TaintAnalyzer.tainted_functions
                  (final (TaintAnalyzer.analyze (ast.Module_ file_a) TaintAnalyzer.init)))
  ∧ ∃ m, MultiFileTaintAnalyzer.analyze_files
           [("a.py", ast.Module_ file_a); ("b.py", ast.Module_ (file_b 1))]
           MultiFileTaintAnalyzer.init = Done m
         ∧ MultiFileTaintAnalyzer.issues m = []
         ∧ MultiFileTaintAnalyzer.tainted_vars m = {[ "s" ]}.
Proof.
  split; [by vm_compute|].
  eexists. split; [vm_compute; reflexivity|]. split; vm_compute; reflexivity.
Qed.

(** C5, amended: every file is analysed by a fresh analyzer whose
    tainted-functions table starts empty.  Whatever the aggregator has
    processed before, the pass over file B completes, records no issue
    and taints no variable; the issue is reported through the propagation
    rule when the definition of [leak] precedes the two statements in the
    same file. *)
Theorem taint_does_not_cross_files :
  (∀ m, ∃ m',
      MultiFileTaintAnalyzer.analyze_file "b.py" (ast.Module_ (file_b 1)) m = Done m'
      ∧ MultiFileTaintAnalyzer.issues m' = MultiFileTaintAnalyzer.issues m
      ∧ MultiFileTaintAnalyzer.tainted_vars m' = MultiFileTaintAnalyzer.tainted_vars m
      ∧ MultiFileTaintAnalyzer.filewise_taint m' !! "b.py" = Some ∅)
  ∧ ∃ s, TaintAnalyzer.analyze (ast.Module_ (file_a ++ file_b 3)) TaintAnalyzer.init = Done s
         ∧ TaintAnalyzer.issues s = [TaintAnalyzer.issue_text "eval" 4]
         ∧ "x" ∈ TaintAnalyzer.tainted_vars s
         ∧ "leak" ∈ dom (TaintAnalyzer.tainted_functions s).
Proof.
  split.
  - intros m.
    assert (∃ s, TaintAnalyzer.analyze (ast.Module_ (file_b 1)) TaintAnalyzer.init = Done s
                 ∧ TaintAnalyzer.issues s = [] ∧ TaintAnalyzer.tainted_vars s = ∅)
      as (s & Hs & Hi & Hv).
    { eexists. split; [vm_compute; reflexivity|]. split; vm_compute; reflexivity. }
    exists (MultiFileTaintAnalyzer.absorb "b.py" s m).
    unfold MultiFileTaintAnalyzer.analyze_file. rewrite Hs.
    unfold MultiFileTaintAnalyzer.absorb. simpl. rewrite Hi, Hv.
    split_and!;
      [done|by rewrite app_nil_r|by rewrite union_empty_r_L|apply lookup_insert_eq].
  - eexists. split; [vm_compute; reflexivity|].
    split_and!; [vm_compute; reflexivity|by vm_compute|by vm_compute].
Qed.

(** ** The shape of an issue (C6) *)



(** ** Monotone taint (C7) *)

(** [x = input()], [lst = [x]], [lst = ["safe"]] *)
Definition rebound_list : list ast.node :=
  [ast.Assign [ast.Name "x"] (ast.Call (ast.Name "input") [] [] 1);
   ast.Assign [ast.Name "lst"] (ast.List [ast.Name "x"]);
   ast.Assign [ast.Name "lst"] (ast.List [ast.Str "safe"])].

(** The state of the traversal of a module after its first [k] statements. *)
Definition after_statements (k : nat) (body : list ast.node) : TaintAnalyzer.t :=
  final (for_each (TaintAnalyzer.visit (Some (ast.Module_ body))) (take k body)
           TaintAnalyzer.init).

(** C7 as stated fails: the element set recorded for a collection
    shrinks.  After the second statement of [rebound_list] the set of [lst]
    is [{x}], after the third it is empty. *)
Lemma collection_elements_shrink :
  TaintAnalyzer.tainted_collections (after_statements 2 rebound_list) !! "lst"
  = Some {[ "x" ]}
  ∧ TaintAnalyzer.tainted_collections (after_statements 3 rebound_list) !! "lst"
    = Some ∅
  ∧ after_statements 3 rebound_list
    = final (TaintAnalyzer.analyze (ast.Module_ rebound_list) TaintAnalyzer.init)
  ∧ ¬ ∀ parent n s x elements elements',
        TaintAnalyzer.tainted_collections s !! x = Some elements →
        TaintAnalyzer.tainted_collections (final (TaintAnalyzer.visit parent n s)) !! x
        = Some elements' →
        elements ⊆ elements'.
Proof.
  split_and!; [by vm_compute|by vm_compute|by vm_compute|].
  intros Hmono.
  specialize (Hmono (Some (ast.Module_ rebound_list))
                (ast.Assign [ast.Name "lst"] (ast.List [ast.Str "safe"]))
                (after_statements 2 rebound_list) "lst" {[ "x" ]} ∅).
  assert (({[ "x" ]} : gset string) ⊆ ∅) as Hsub; [|set_solver].
  apply Hmono; by vm_compute.
Qed.

(** C7, amended: a traversal, completed or aborted, started on any node in
    any state, is a sequence of writes that add a tainted variable, set a
    collection's entry, mark a function tainted or append an issue.  So
    between any two points of a pass the tainted-variable set, the
    tainted-functions set and the set of registered collections never
    shrink.  (The element set recorded for a collection is replaced by each
    assignment of a list or dict literal to it.) *)
Theorem taint_tables_grow parent n s :
  taint_writes s (final (TaintAnalyzer.visit parent n s))
  ∧ taint_grows s (final (TaintAnalyzer.visit parent n s)).
Proof.
  split; [apply visit_writes|apply taint_writes_grows, visit_writes].
Qed.

(** ** Order of the files in the call graph (C8) *)

(** C8: for the items of an input dict (file names without repetition)
    taken in any two orders, whatever graph the aggregator held before:
    when [build_call_graph] completes in both orders, the two global call
    graphs are equal.  (The interpreter's recursion limit is not modelled;
    a run it stops is not a completed run.) *)
Theorem build_call_graph_order_independent files files' g g1 g2 :
  NoDup files.*1 → files ≡ₚ files' →
  MultiFileCallGraphBuilder.build_call_graph files g = Done g1 →
  MultiFileCallGraphBuilder.build_call_graph files' g = Done g2 →
  g1 = g2.
Proof.
  intros Hdup Hperm. rewrite !build_call_graph_done. intros [= <-] [= <-].
  by apply merge_files_permutation.
Qed.

(** Two files in the two orders. *)
Lemma build_call_graph_order_independent_witness :
  ∃ g1 g2,
    MultiFileCallGraphBuilder.build_call_graph
      [("a.py", nested_functions); ("b.py", ast.Module_ file_a)]
      MultiFileCallGraphBuilder.init = Done g1
    ∧ MultiFileCallGraphBuilder.build_call_graph
        [("b.py", ast.Module_ file_a); ("a.py", nested_functions)]
        MultiFileCallGraphBuilder.init = Done g2
    ∧ g1 = g2.
Proof.
  eexists _, _. split; [vm_compute; reflexivity|]. split; [vm_compute; reflexivity|].
  eapply (build_call_graph_order_independent
            [("a.py", nested_functions); ("b.py", ast.Module_ file_a)]
            [("b.py", ast.Module_ file_a); ("a.py", nested_functions)]
            MultiFileCallGraphBuilder.init).
  - apply (bool_decide_unpack _). vm_compute. exact I.
  - apply perm_swap.
  - vm_compute. reflexivity.
  - vm_compute. reflexivity.
Defined.

(** ** Keyword arguments of a sink call (C9) *)

(** Writes that only add tainted variables. *)
Definition only_vars_added (s s' : TaintAnalyzer.t) : Prop :=
  TaintAnalyzer.tainted_vars s ⊆ TaintAnalyzer.tainted_vars s'
  ∧ TaintAnalyzer.issues s' = TaintAnalyzer.issues s
  ∧ TaintAnalyzer.sensitive_sinks s' = TaintAnalyzer.sensitive_sinks s.

Lemma taint_targets_only_vars targets s s0 :
  only_vars_added s0 s →
  completes (only_vars_added s0) (TaintAnalyzer.taint_targets targets s).
Proof.
  intros Hs. apply for_each_completes; [done|]. intros target _ s' Hs'.
  destruct target; try (by exists s'). eexists; split; [done|].
  destruct Hs' as (Hv & Hi & Hk).
  split_and!; simpl; [|done|done]. etrans; [exact Hv|]. apply union_subseteq_r.
Qed.

Lemma taint_parent_targets_only_vars p s s0 :
  only_vars_added s0 s →
  completes (only_vars_added s0) (TaintAnalyzer.taint_parent_targets (Some p) s).
Proof.
  intros Hs. destruct p; simpl; try (by exists s). by apply taint_targets_only_vars.
Qed.


Lemma propagation_rule_only_vars p callname s s0 :
  only_vars_added s0 s →
  completes (only_vars_added s0) (TaintAnalyzer.propagation_rule (Some p) callname s).
Proof.
  intros Hs. unfold TaintAnalyzer.propagation_rule.
  case_bool_decide; [by apply taint_parent_targets_only_vars|by exists s].
Qed.

(** Visiting a chain of attributes on an identifier writes nothing. *)
Lemma visit_name_chain func acc acc' parent s :
  get_name func acc = Some acc' → TaintAnalyzer.visit parent func s = Done s.
Proof.
  revert acc parent. induction func; intros acc parent Hacc; try done.
  simpl in *. by eapply IHfunc.
Qed.


Section issue_frame.
Context (l1 l2 : list string).
























End issue_frame.





(** ** The aggregator's own source and sink sets (C10) *)

(** What a run of the aggregator shows: the exception, if any, the global
    tainted variables, the issues, the per-file tainted variables and the
    report. *)
Definition observe (order : gset string → list string)
    (o : outcome MultiFileTaintAnalyzer.t) :=
  (match o with Done _ => None | Abort e _ => Some e end,
   MultiFileTaintAnalyzer.tainted_vars (final o),
   MultiFileTaintAnalyzer.issues (final o),
   MultiFileTaintAnalyzer.filewise_taint (final o),
   MultiFileTaintAnalyzer.get_report order (final o)).

(** The aggregator with its two sets replaced. *)
Definition with_sets (sinks sources : gset string) (m : MultiFileTaintAnalyzer.t) :
    MultiFileTaintAnalyzer.t :=
  MultiFileTaintAnalyzer.mk (MultiFileTaintAnalyzer.tainted_vars m) sinks sources
    (MultiFileTaintAnalyzer.issues m) (MultiFileTaintAnalyzer.filewise_taint m).

Lemma analyze_files_with_sets sinks sources order files m :
  observe order (MultiFileTaintAnalyzer.analyze_files files (with_sets sinks sources m))
  = observe order (MultiFileTaintAnalyzer.analyze_files files m).
Proof.
  revert m. induction files as [|[file_name tree] files IH]; intros m; [done|].
  unfold MultiFileTaintAnalyzer.analyze_files in *. simpl.
  unfold MultiFileTaintAnalyzer.analyze_file.
  destruct (TaintAnalyzer.analyze tree TaintAnalyzer.init) as [local|e local];
    simpl; [|done].
  apply (IH (MultiFileTaintAnalyzer.absorb file_name local m)).
Qed.

(** C10: the aggregator's [taint_sources] and [sensitive_sinks] are never
    read.  For every input and every two values of the two fields, the
    runs end alike (same exception, if any) with the same issues, the same
    global and per-file tainted variables and the same report text. *)
Theorem aggregator_sets_not_consulted
    order files tainted_vars issues filewise_taint sinks1 sources1 sinks2 sources2 :
  observe order
    (MultiFileTaintAnalyzer.analyze_files files
       (MultiFileTaintAnalyzer.mk tainted_vars sinks1 sources1 issues filewise_taint))
  = observe order
      (MultiFileTaintAnalyzer.analyze_files files
         (MultiFileTaintAnalyzer.mk tainted_vars sinks2 sources2 issues filewise_taint)).
Proof.
  pose (m := MultiFileTaintAnalyzer.mk tainted_vars ∅ ∅ issues filewise_taint).
  change (MultiFileTaintAnalyzer.mk tainted_vars sinks1 sources1 issues filewise_taint)
    with (with_sets sinks1 sources1 m).
  change (MultiFileTaintAnalyzer.mk tainted_vars sinks2 sources2 issues filewise_taint)
    with (with_sets sinks2 sources2 m).
  by rewrite !analyze_files_with_sets.
Qed.

(** * Further properties of the code *)

Set Warnings "-clear-no-such-hyp".

(** ** Dotted names of attribute chains *)

(** The expression [base.a1.a2...]: attribute accesses on an identifier. *)
Definition attribute_chain (base : string) (attrs : list string) : ast.node :=
  foldl ast.Attribute (ast.Name base) attrs.

Lemma get_name_attribute_chain base attrs acc :
  get_name (attribute_chain base attrs) acc = Some (acc ++ rev attrs ++ [base]).
Proof.
  unfold attribute_chain. revert acc.
  induction attrs as [|attr attrs IH] using rev_ind; intros acc; [done|].
  rewrite foldl_app. simpl. rewrite IH, rev_app_distr. simpl.
  by rewrite <- !app_assoc.
Qed.

(** An expression is an attribute chain on an identifier iff [get_name]
    does not return [None]. *)
Fixpoint is_chain (n : ast.node) : bool :=
  match n with
  | ast.Name _ => true
  | ast.Attribute value _ => is_chain value
  | _ => false
  end.

Lemma get_name_is_chain n acc : is_Some (get_name n acc) ↔ is_chain n = true.
Proof.
  revert acc. induction n; intros acc; simpl;
    first [ split; [by intros [? [=]]|by intros [=]]
          | apply IHn
          | split; [done|by eauto] ].
Qed.

(** [get_name] and the join in [visit_Call] give back the dotted name as
    written in the source: for the call target [base.a1. ... .ak] the
    resolved name is [base], [a1], ..., [ak] joined with dots; and a call
    target resolves to a name exactly when it is such a chain. *)
Theorem callname_of_attribute_chain base attrs func :
  callname_of (attribute_chain base attrs) = Ok (String.concat "." (base :: attrs))
  ∧ ((∃ callname, callname_of func = Ok callname) ↔ is_chain func = true)
  ∧ (callname_of func = Raise TypeError ↔ is_chain func = false).
Proof.
  split_and!.
  - unfold callname_of. rewrite get_name_attribute_chain. simpl.
    by rewrite rev_app_distr, rev_involutive.
  - rewrite <- (get_name_is_chain func []). unfold callname_of.
    destruct (get_name func []); split; eauto; by intros [? [=]].
  - unfold callname_of. pose proof (get_name_is_chain func []) as Hc.
    destruct (get_name func []), (is_chain func); split; try done; intros _; exfalso;
      first [ assert (false = true) as [=] by (apply Hc; eauto)
            | destruct (proj2 Hc eq_refl) as [? [=]] ].
Qed.

Lemma callname_of_chain_iff func :
  (∃ callname, callname_of func = Ok callname) ↔ is_chain func = true.
Proof.
  rewrite <- (get_name_is_chain func []). unfold callname_of.
  destruct (get_name func []); split; eauto; by intros [? [=]].
Qed.

(** ** [ast.walk] and the descendants of a node *)

(** [descendant d n]: [d] is [n] or occurs below it. *)
Inductive descendant : ast.node → ast.node → Prop :=
| descendant_self n : descendant n n
| descendant_child d c n :
    c ∈ ast.iter_child_nodes n → descendant d c → descendant d n.

Lemma descendant_trans d c n : descendant d c → descendant c n → descendant d n.
Proof.
  intros Hdc Hcn. induction Hcn as [n|c c' n Hc' _ IH]; [done|].
  eapply descendant_child; [done|]. by apply IH.
Qed.

Lemma descendant_inv d n :
  descendant d n ↔ d = n ∨ ∃ c, c ∈ ast.iter_child_nodes n ∧ descendant d c.
Proof.
  split.
  - intros [n'|d' c n' Hc Hd]; [by left|right; eauto].
  - intros [->|(c & Hc & Hd)]; [constructor|by eapply descendant_child].
Qed.

Lemma size_pos n : 0 < ast.size n.
Proof. rewrite size_iter_child_nodes. lia. Qed.

Lemma walk_queue_elem fuel todo d :
  sum_list_with ast.size todo ≤ fuel →
  d ∈ ast.walk_queue fuel todo ↔ ∃ t, t ∈ todo ∧ descendant d t.
Proof.
  revert todo. induction fuel as [|fuel IH]; intros todo Hle.
  - destruct todo as [|n rest]; simpl in *.
    + split; [by intros ?%elem_of_nil|by intros (t & ?%elem_of_nil & _)].
    + pose proof (size_pos n). lia.
  - destruct todo as [|n rest]; simpl in *.
    { split; [by intros ?%elem_of_nil|by intros (t & ?%elem_of_nil & _)]. }
    rewrite elem_of_cons, IH
      by (rewrite sum_list_with_app; rewrite (size_iter_child_nodes n) in Hle; lia).
    split.
    + intros [->|(t & [Ht|Ht]%elem_of_app & Hd)].
      * exists n. split; [left|constructor].
      * exists t. split; [by right|done].
      * exists n. split; [left|by eapply descendant_child].
    + intros (t & [->|Ht]%elem_of_cons & Hd).
      * apply descendant_inv in Hd as [->|(c & Hc & Hd)]; [by left|].
        right. exists c. split; [apply elem_of_app; by right|done].
      * right. exists t. split; [apply elem_of_app; by left|done].
Qed.

Lemma walk_elem n d : d ∈ ast.walk n ↔ descendant d n.
Proof.
  unfold ast.walk. rewrite walk_queue_elem by (simpl; lia).
  split; [by intros (t & ->%list_elem_of_singleton & Hd)|].
  intros Hd. exists n. split; [left|done].
Qed.

(** [ast.walk(node)] yields [node] first, then nodes below it: as many
    nodes as the tree has, and a node is yielded iff it is [node] or one of
    its descendants. *)
Theorem walk_descendants n :
  (∃ rest, ast.walk n = n :: rest)
  ∧ length (ast.walk n) = ast.size n
  ∧ ∀ d, d ∈ ast.walk n ↔ descendant d n.
Proof.
  split_and!.
  - unfold ast.walk. rewrite (size_iter_child_nodes n). simpl. eauto.
  - apply walk_length.
  - apply walk_elem.
Qed.

(** ** Where the writes of a taint pass come from *)

Section write_from.
Context (V F : string → Prop) (K : string → Z → Prop).

(** A write whose variable or collection name satisfies [V], whose function
    name satisfies [F], whose sink name and line satisfy [K]. *)
Inductive write_from : relation TaintAnalyzer.t :=
| from_var x s :
    V x → write_from s (TaintAnalyzer.add_tainted_var x s)
| from_collection x elements s :
    V x → write_from s (TaintAnalyzer.set_tainted_collection x elements s)
| from_function f s :
    F f → write_from s (TaintAnalyzer.set_tainted_function f s)
| from_issue callname lineno s :
    callname ∈ TaintAnalyzer.sensitive_sinks s → K callname lineno →
    write_from s (TaintAnalyzer.append_issue (TaintAnalyzer.issue_text callname lineno) s).

Definition writes_from : relation TaintAnalyzer.t := rtc write_from.

#[local] Instance writes_from_preorder : PreOrder writes_from.
Proof. unfold writes_from. apply _. Qed.

Lemma writes_from_vars s s' x :
  writes_from s s' →
  x ∈ TaintAnalyzer.tainted_vars s' → x ∈ TaintAnalyzer.tainted_vars s ∨ V x.
Proof.
  induction 1 as [s|s s1 s' Hw _ IH]; [by left|]. intros Hx.
  destruct (IH Hx) as [Hx1|?]; [|by right].
  destruct Hw; simpl in *; try (by left).
  apply elem_of_union in Hx1 as [->%elem_of_singleton|?]; [by right|by left].
Qed.

Lemma writes_from_collections s s' x :
  writes_from s s' →
  x ∈ dom (TaintAnalyzer.tainted_collections s') →
  x ∈ dom (TaintAnalyzer.tainted_collections s) ∨ V x.
Proof.
  induction 1 as [s|s s1 s' Hw _ IH]; [by left|]. intros Hx.
  destruct (IH Hx) as [Hx1|?]; [|by right].
  destruct Hw; simpl in *; try (by left).
  rewrite dom_insert_L in Hx1.
  apply elem_of_union in Hx1 as [->%elem_of_singleton|?]; [by right|by left].
Qed.

Lemma writes_from_functions s s' f :
  writes_from s s' →
  f ∈ dom (TaintAnalyzer.tainted_functions s') →
  f ∈ dom (TaintAnalyzer.tainted_functions s) ∨ F f.
Proof.
  induction 1 as [s|s s1 s' Hw _ IH]; [by left|]. intros Hf.
  destruct (IH Hf) as [Hf1|?]; [|by right].
  destruct Hw; simpl in *; try (by left).
  rewrite dom_insert_L in Hf1.
  apply elem_of_union in Hf1 as [->%elem_of_singleton|?]; [by right|by left].
Qed.

Lemma writes_from_issues s s' :
  writes_from s s' →
  TaintAnalyzer.sensitive_sinks s' = TaintAnalyzer.sensitive_sinks s
  ∧ ∃ new, TaintAnalyzer.issues s' = TaintAnalyzer.issues s ++ new
           ∧ Forall (λ issue, ∃ callname lineno,
                       callname ∈ TaintAnalyzer.sensitive_sinks s
                       ∧ K callname lineno
                       ∧ issue = TaintAnalyzer.issue_text callname lineno) new.
Proof.
  induction 1 as [s|s s1 s' Hw _ (Hsinks & new & Hnew & Hform)].
  { split; [done|]. exists []. by rewrite app_nil_r. }
  destruct Hw as [x s|x elements s|f s|callname lineno s Hsink HK]; simpl in *;
    try (split; [done|]; by exists new).
  split; [done|]. exists (TaintAnalyzer.issue_text callname lineno :: new).
  split; [by rewrite Hnew, <- app_assoc|].
  constructor; [by exists callname, lineno|done].
Qed.

(** Without writes of variables and collections, both stay as they are. *)
Lemma writes_from_no_vars s s' :
  (∀ x, ¬ V x) → writes_from s s' →
  TaintAnalyzer.tainted_vars s' = TaintAnalyzer.tainted_vars s
  ∧ TaintAnalyzer.tainted_collections s' = TaintAnalyzer.tainted_collections s.
Proof.
  intros HV. induction 1 as [s|s s1 s' Hw _ [IHv IHc]]; [done|].
  rewrite IHv, IHc. destruct Hw; simpl; try done; by edestruct HV.
Qed.

End write_from.

Lemma writes_from_weaken (V V' F F' : string → Prop) (K K' : string → Z → Prop) s s' :
  (∀ x, V x → V' x) → (∀ f, F f → F' f) → (∀ c l, K c l → K' c l) →
  writes_from V F K s s' → writes_from V' F' K' s s'.
Proof.
  intros HV HF HK. induction 1 as [s|s s1 s' Hw _ IH]; [constructor|].
  eapply rtc_l; [|exact IH]. destruct Hw; constructor; auto.
Qed.

(** The names a rule can write. *)
Definition targets_of (n : ast.node) (x : string) : Prop :=
  ∃ targets value, n = ast.Assign targets value ∧ ast.Name x ∈ targets.

Definition assigned_below (parent : option ast.node) (n : ast.node) (x : string) : Prop :=
  (∃ p, parent = Some p ∧ targets_of p x) ∨ ∃ d, descendant d n ∧ targets_of d x.

Definition defined_below (n : ast.node) (f : string) : Prop :=
  ∃ args body decorator_list returns,
    descendant (ast.FunctionDef f args body decorator_list returns) n.

Definition called_below (n : ast.node) (callname : string) (lineno : Z) : Prop :=
  ∃ func args keywords,
    descendant (ast.Call func args keywords lineno) n ∧ callname_of func = Ok callname.

Definition nothing (x : string) : Prop := False.
Definition no_call (callname : string) (lineno : Z) : Prop := False.

Lemma taint_targets_from targets s :
  writes_from (λ x, ast.Name x ∈ targets) nothing no_call
    s (final (TaintAnalyzer.taint_targets targets s)).
Proof.
  unfold TaintAnalyzer.taint_targets.
  apply (for_each_final (writes_from _ _ _)). intros target Ht s'.
  destruct target; simpl; try reflexivity. apply rtc_once. by constructor.
Qed.

Lemma taint_parent_targets_from parent s :
  writes_from (λ x, ∃ p, parent = Some p ∧ targets_of p x) nothing no_call
    s (final (TaintAnalyzer.taint_parent_targets parent s)).
Proof.
  destruct parent as [p|]; simpl; [|reflexivity].
  destruct p; simpl; try reflexivity.
  eapply writes_from_weaken; [| | |apply taint_targets_from]; try done.
  intros x Hx. eexists; split; [done|]. by eexists _, _.
Qed.

Lemma source_rule_from parent callname s :
  writes_from (λ x, ∃ p, parent = Some p ∧ targets_of p x) nothing no_call
    s (final (TaintAnalyzer.source_rule parent callname s)).
Proof.
  unfold TaintAnalyzer.source_rule.
  case_bool_decide; [apply taint_parent_targets_from|reflexivity].
Qed.

Lemma propagation_rule_from parent callname s :
  writes_from (λ x, ∃ p, parent = Some p ∧ targets_of p x) nothing no_call
    s (final (TaintAnalyzer.propagation_rule parent callname s)).
Proof.
  unfold TaintAnalyzer.propagation_rule.
  case_bool_decide; [apply taint_parent_targets_from|reflexivity].
Qed.

Lemma sink_rule_from callname args lineno s :
  writes_from nothing nothing (λ c l, c = callname ∧ l = lineno)
    s (final (TaintAnalyzer.sink_rule callname args lineno s)).
Proof.
  unfold TaintAnalyzer.sink_rule. case_bool_decide as Hsink; simpl; [|reflexivity].
  revert s Hsink. induction args as [|arg args IH]; intros s Hsink; simpl; [reflexivity|].
  destruct (TaintAnalyzer._is_tainted s arg) as [[]|e]; simpl;
    [|by apply IH|reflexivity].
  eapply rtc_l; [by constructor|]. by apply IH.
Qed.

Lemma assign_rules_from targets value s :
  writes_from (λ x, ast.Name x ∈ targets) nothing no_call
    s (final (TaintAnalyzer.assign_rules targets value s)).
Proof.
  unfold TaintAnalyzer.assign_rules. apply (then_final (writes_from _ _ _)).
  - destruct value; simpl; try reflexivity.
    case_bool_decide; [apply taint_targets_from|reflexivity].
  - intros s'. destruct value; simpl; try reflexivity;
      apply (for_each_final (writes_from _ _ _)); intros target Ht s1;
      destruct target; simpl; try reflexivity;
      try match goal with
          | |- context [match ?r with Ok _ => _ | Raise _ => _ end] => destruct r
          end; simpl; try reflexivity; apply rtc_once; by constructor.
Qed.

Lemma function_rule_from name n s :
  writes_from nothing (λ f, f = name) no_call
    s (final (TaintAnalyzer.function_rule name n s)).
Proof.
  apply (for_each_final (writes_from _ _ _)). intros child _ s'.
  destruct child; simpl; try reflexivity.
  destruct (TaintAnalyzer._is_tainted_opt s' value) as [[]|e]; simpl; try reflexivity.
  apply rtc_once. by constructor.
Qed.

Lemma return_rule_from value s :
  writes_from nothing nothing no_call s (final (TaintAnalyzer.return_rule value s)).
Proof.
  unfold TaintAnalyzer.return_rule.
  destruct (TaintAnalyzer._is_tainted_opt s value); simpl; reflexivity.
Qed.

Lemma assigned_below_child parent n c x :
  c ∈ ast.iter_child_nodes n → assigned_below (Some n) c x → assigned_below parent n x.
Proof.
  intros Hc [(p & [= <-] & Hp)|(d & Hd & Hx)]; right.
  - exists n. split; [constructor|done].
  - exists d. split; [by eapply descendant_child|done].
Qed.

Lemma defined_below_child n c f :
  c ∈ ast.iter_child_nodes n → defined_below c f → defined_below n f.
Proof.
  intros Hc (a & b & dl & r & Hd). exists a, b, dl, r. by eapply descendant_child.
Qed.

Lemma called_below_child n c callname lineno :
  c ∈ ast.iter_child_nodes n → called_below c callname lineno →
  called_below n callname lineno.
Proof.
  intros Hc (f & a & k & Hd & Hname). exists f, a, k.
  split; [by eapply descendant_child|done].
Qed.

Ltac split_from :=
  repeat match goal with
         | |- writes_from _ _ _ _ (final (_ >>> _)) =>
             apply (then_final (writes_from _ _ _)); [|intros ?]
         end.

(** Every traversal writes only names found at the node, below it, or
    among the targets of its parent assignment. *)
Lemma visit_writes_from parent n s :
  writes_from (assigned_below parent n) (defined_below n) (called_below n)
    s (final (TaintAnalyzer.visit parent n s)).
Proof.
  revert parent s. induction n as [n IH] using node_children_ind.
  assert (∀ c parent s, c ∈ ast.iter_child_nodes n →
    writes_from (assigned_below parent n) (defined_below n) (called_below n)
      s (final (TaintAnalyzer.visit (Some n) c s))) as IHc.
  { intros c parent s Hc. eapply writes_from_weaken; [| | |by apply IH].
    - intros x. by apply assigned_below_child.
    - intros f. by apply defined_below_child.
    - intros f l. by apply called_below_child. }
  assert (∀ l parent, l ⊆ ast.iter_child_nodes n → ∀ s,
    writes_from (assigned_below parent n) (defined_below n) (called_below n)
      s (final (for_each (TaintAnalyzer.visit (Some n)) l s))) as IHs.
  { intros l parent Hl s. apply (for_each_final (writes_from _ _ _)). intros c Hc s'.
    apply IHc. by apply Hl. }
  assert (∀ o parent, ast.opt_nodes o ⊆ ast.iter_child_nodes n → ∀ s,
    writes_from (assigned_below parent n) (defined_below n) (called_below n)
      s (final (TaintAnalyzer.visit_opt (TaintAnalyzer.visit (Some n)) o s))) as IHo.
  { intros [c|] parent Ho s; simpl; [apply IHc, Ho; left|reflexivity]. }
  intros parent s. destruct n; simpl in *.
  - apply IHs. set_solver.
  - split_from; [|apply IHc|apply IHs|apply IHs|apply IHo]; try set_solver.
    eapply writes_from_weaken; [| | |apply function_rule_from]; try done.
    intros f ->. eexists _, _, _, _. constructor.
  - split_from; [|apply IHo; set_solver].
    eapply writes_from_weaken; [| | |apply return_rule_from]; done.
  - split_from; [|apply IHs|apply IHc]; try set_solver.
    eapply writes_from_weaken; [| | |apply assign_rules_from]; try done.
    intros x Hx. right. eexists. split; [constructor|]. by eexists _, _.
  - apply IHc. set_solver.
  - split_from; apply IHc; set_solver.
  - split_from; [|apply IHs; set_solver].
    apply (for_each_final (writes_from _ _ _)). intros [k|] Hk s'; simpl; [|reflexivity].
    apply IHc. apply elem_of_app. left. by apply elem_of_opt_nodes_concat.
  - destruct (callname_of n) as [callname|e] eqn:Hname; simpl; [|reflexivity].
    split_from; [| | |apply IHc|apply IHs|apply IHs]; try set_solver.
    + eapply writes_from_weaken; [| | |apply source_rule_from]; try done.
      intros x Hx. by left.
    + eapply writes_from_weaken; [| | |apply sink_rule_from]; try done.
      intros c l [-> ->]. eexists _, _, _. split; [constructor|done].
    + eapply writes_from_weaken; [| | |apply propagation_rule_from]; try done.
      intros x Hx. by left.
  - reflexivity.
  - apply IHc. set_solver.
  - split_from; apply IHc; set_solver.
  - reflexivity.
  - apply IHs. set_solver.
  - apply IHc. set_solver.
  - apply IHs. set_solver.
Qed.

(** [p] holds of every node [ast.walk] yields. *)
Definition all_nodes (p : ast.node → bool) (n : ast.node) : bool :=
  forallb p (ast.walk n).

Lemma all_nodes_spec p n :
  all_nodes p n = true ↔ ∀ d, descendant d n → p d = true.
Proof.
  unfold all_nodes. rewrite forallb_forall. split.
  - intros Hp d Hd. apply Hp, list_elem_of_In. by apply walk_elem.
  - intros Hp d Hd. apply Hp. by apply walk_elem, list_elem_of_In.
Qed.

(** Newly tainted variables and newly registered collections are targets of
    an assignment: of an assignment at or below the visited node, or of the
    node's parent assignment.  The pass taints no other name. *)
Theorem new_taint_is_assignment_target parent n s x :
  let s' := final (TaintAnalyzer.visit parent n s) in
  (x ∈ TaintAnalyzer.tainted_vars s' ∧ x ∉ TaintAnalyzer.tainted_vars s)
  ∨ (x ∈ dom (TaintAnalyzer.tainted_collections s')
     ∧ x ∉ dom (TaintAnalyzer.tainted_collections s)) →
  assigned_below parent n x.
Proof.
  intros s' [[Hx Hnot]|[Hx Hnot]].
  - by destruct (writes_from_vars _ _ _ _ _ x (visit_writes_from parent n s) Hx).
  - by destruct (writes_from_collections _ _ _ _ _ x (visit_writes_from parent n s) Hx).
Qed.

Lemma new_taint_is_assignment_target_witness :
  assigned_below None (source_to_sink 1 2) "x".
Proof.
  apply (new_taint_is_assignment_target None (source_to_sink 1 2) TaintAnalyzer.init "x").
  left. split.
  - apply (bool_decide_unpack _). vm_compute. exact I.
  - apply (bool_decide_unpack _). vm_compute. exact I.
Defined.

(** A function newly marked tainted is defined at or below the visited
    node. *)
Theorem new_tainted_function_is_defined parent n s f :
  f ∈ dom (TaintAnalyzer.tainted_functions (final (TaintAnalyzer.visit parent n s))) →
  f ∉ dom (TaintAnalyzer.tainted_functions s) →
  defined_below n f.
Proof.
  intros Hf Hnot.
  by destruct (writes_from_functions _ _ _ _ _ f (visit_writes_from parent n s) Hf).
Qed.

Lemma new_tainted_function_is_defined_witness :
  defined_below (ast.Module_ file_a) "leak".
Proof.
  apply (new_tainted_function_is_defined None (ast.Module_ file_a) TaintAnalyzer.init).
  - apply (bool_decide_unpack _). vm_compute. exact I.
  - apply (bool_decide_unpack _). vm_compute. exact I.
Defined.

(** The issues a traversal appends each stand for a call at or below the
    visited node: the issue is the text
    [Tainted data passed to sensitive function '<name>' at line <line>]
    with the resolved name of that call, a member of the sink set, and the
    decimal numeral of the call's line number. *)
Theorem new_issues_are_sink_calls parent n s :
  (∃ new,
     TaintAnalyzer.issues (final (TaintAnalyzer.visit parent n s))
     = TaintAnalyzer.issues s ++ new
     ∧ Forall (λ issue, ∃ callname lineno,
                 callname ∈ TaintAnalyzer.sensitive_sinks s
                 ∧ called_below n callname lineno
                 ∧ issue = "Tainted data passed to sensitive function '" +:+ callname
                           +:+ "' at line " +:+ str_int lineno) new)
  ∧ ∀ lineno, option_map Z.of_int (NilZero.int_of_string (str_int lineno)) = Some lineno.
Proof.
  split; [|apply str_int_decimal].
  by destruct (writes_from_issues _ _ _ _ _ (visit_writes_from parent n s)) as [_ ?].
Qed.

Definition is_name (n : ast.node) : bool :=
  match n with ast.Name _ => true | _ => false end.

(** The node is not an assignment to an identifier. *)
Definition no_name_target (n : ast.node) : bool :=
  match n with
  | ast.Assign targets _ => forallb (λ target, negb (is_name target)) targets
  | _ => true
  end.

Lemma no_name_target_spec n x : no_name_target n = true → ¬ targets_of n x.
Proof.
  intros Hn (targets & value & -> & Hx). simpl in Hn.
  rewrite forallb_forall in Hn. by specialize (Hn _ (proj1 (list_elem_of_In _ _) Hx)).
Qed.

(** Without an assignment to an identifier there is no taint: when neither
    the visited tree nor the parent holds an assignment with a [Name]
    target, the tainted variables and the collections table are after the
    traversal what they were before.  A bare [input()] taints nothing. *)
Theorem no_assignment_no_taint parent n s :
  all_nodes no_name_target n = true →
  from_option no_name_target true parent = true →
  TaintAnalyzer.tainted_vars (final (TaintAnalyzer.visit parent n s))
  = TaintAnalyzer.tainted_vars s
  ∧ TaintAnalyzer.tainted_collections (final (TaintAnalyzer.visit parent n s))
    = TaintAnalyzer.tainted_collections s.
Proof.
  intros Hn Hp. eapply writes_from_no_vars; [|apply visit_writes_from].
  intros x [(p & -> & Hx)|(d & Hd & Hx)].
  - by eapply no_name_target_spec.
  - eapply no_name_target_spec; [|done]. by eapply all_nodes_spec.
Qed.

(** [input()] and [a.b = input()]: no identifier is assigned. *)
Definition bare_input : ast.node :=
  ast.Module_
    [ast.Expr (ast.Call (ast.Name "input") [] [] 1);
     ast.Assign [ast.Attribute (ast.Name "a") "b"] (ast.Call (ast.Name "input") [] [] 2)].

Lemma no_assignment_no_taint_witness :
  TaintAnalyzer.tainted_vars (final (TaintAnalyzer.visit None bare_input TaintAnalyzer.init))
  = TaintAnalyzer.tainted_vars TaintAnalyzer.init
  ∧ TaintAnalyzer.tainted_collections
      (final (TaintAnalyzer.visit None bare_input TaintAnalyzer.init))
    = TaintAnalyzer.tainted_collections TaintAnalyzer.init.
Proof.
  apply (no_assignment_no_taint None bare_input TaintAnalyzer.init); reflexivity.
Defined.

(** ** Trees on which the taint pass does not raise *)

(** A dict key whose [s] or [id] can be read. *)
Definition key_ok (key : option ast.node) : bool :=
  match key with
  | Some (ast.Str _) | Some (ast.Name _) => true
  | _ => false
  end.

(** The call target is an attribute chain on an identifier; the keys of a
    dict literal are string literals or identifiers. *)
Definition node_ok (n : ast.node) : bool :=
  match n with
  | ast.Call func _ _ _ => is_chain func
  | ast.Dict keys _ => forallb key_ok keys
  | _ => true
  end.

Definition below_ok (n : ast.node) : Prop := ∀ d, descendant d n → node_ok d = true.

Lemma below_ok_child n c : c ∈ ast.iter_child_nodes n → below_ok n → below_ok c.
Proof. intros Hc Hn d Hd. apply Hn. by eapply descendant_child. Qed.

Lemma callname_of_ok func args keywords lineno :
  node_ok (ast.Call func args keywords lineno) = true →
  ∃ callname, callname_of func = Ok callname.
Proof. intros Hok. by apply (callname_of_chain_iff func). Qed.

Lemma is_tainted_ok s n : below_ok n → ∃ b, TaintAnalyzer._is_tainted s n = Ok b.
Proof.
  induction n; intros Hok; simpl; eauto.
  - destruct IHn1 as [b1 ->]; [eapply below_ok_child; [|done]; set_solver|].
    destruct b1; [eauto|]. apply IHn2. eapply below_ok_child; [|done]. set_solver.
  - destruct (callname_of_ok n args keywords lineno) as [callname ->]; [|eauto].
    apply Hok. constructor.
  - destruct n1; eauto.
Qed.

Lemma is_tainted_opt_ok s value :
  below_ok (ast.Return value) → ∃ b, TaintAnalyzer._is_tainted_opt s value = Ok b.
Proof.
  intros Hok. destruct value as [v|]; simpl; [|eauto].
  apply is_tainted_ok. eapply below_ok_child; [|done]. set_solver.
Qed.

Lemma extract_dict_ok s keys values acc :
  forallb key_ok keys = true →
  ∃ elements, TaintAnalyzer.extract_dict s keys values acc = Ok elements.
Proof.
  revert values acc. induction keys as [|key keys IH]; intros values acc Hkeys;
    simpl; [eauto|].
  simpl in Hkeys. apply andb_prop in Hkeys as [Hkey Hkeys].
  destruct values as [|value values]; [eauto|].
  destruct value; try (by apply IH).
  case_bool_decide; [|by apply IH].
  destruct key as [[]|]; try done; by apply IH.
Qed.

Lemma extract_ok s value :
  node_ok value = true →
  ∃ elements, TaintAnalyzer._extract_tainted_elements s value = Ok elements.
Proof.
  intros Hok. destruct value; simpl; eauto. by apply extract_dict_ok.
Qed.

Abbreviation runs := (completes (λ _ : TaintAnalyzer.t, True)).

Lemma taint_targets_runs targets s : runs (TaintAnalyzer.taint_targets targets s).
Proof.
  apply for_each_completes; [done|]. intros target _ s' _.
  destruct target; by eexists.
Qed.

Lemma taint_parent_targets_runs p s :
  runs (TaintAnalyzer.taint_parent_targets (Some p) s).
Proof. destruct p; simpl; try (by eexists). apply taint_targets_runs. Qed.

Lemma sink_rule_runs callname args lineno s :
  (∀ arg, arg ∈ args → below_ok arg) →
  runs (TaintAnalyzer.sink_rule callname args lineno s).
Proof.
  intros Hargs. unfold TaintAnalyzer.sink_rule. case_bool_decide; [|by eexists].
  apply for_each_completes; [done|]. intros arg Harg s' _.
  destruct (is_tainted_ok s' arg) as [[] ->]; [by apply Hargs|by eexists..].
Qed.

Lemma assign_rules_runs targets value s :
  node_ok value = true → runs (TaintAnalyzer.assign_rules targets value s).
Proof.
  intros Hok. unfold TaintAnalyzer.assign_rules. apply then_completes.
  - destruct value; try (by eexists).
    case_bool_decide; [apply taint_targets_runs|by eexists].
  - intros s' _.
    assert (runs (for_each (λ target s0,
      match target with
      | ast.Name id =>
          match TaintAnalyzer._extract_tainted_elements s0 value with
          | Ok elements => Done (TaintAnalyzer.set_tainted_collection id elements s0)
          | Raise e => Abort e s0
          end
      | _ => Done s0
      end) targets s')) as Hloop.
    { apply for_each_completes; [done|]. intros target _ s1 _.
      destruct target; try (by eexists).
      destruct (extract_ok s1 value Hok) as [elements ->]. by eexists. }
    destruct value; try (by eexists); exact Hloop.
Qed.

Lemma function_rule_runs name n s :
  below_ok n → runs (TaintAnalyzer.function_rule name n s).
Proof.
  intros Hok. apply for_each_completes; [done|]. intros child Hchild s' _.
  destruct child; try (by eexists).
  destruct (is_tainted_opt_ok s' value) as [[] ->]; [|by eexists..].
  intros d Hd. apply Hok. eapply descendant_trans; [done|]. by apply walk_elem.
Qed.

Lemma return_rule_runs value s :
  below_ok (ast.Return value) → runs (TaintAnalyzer.return_rule value s).
Proof.
  intros Hok. unfold TaintAnalyzer.return_rule.
  destruct (is_tainted_opt_ok s value Hok) as [b ->]. by eexists.
Qed.

Ltac split_runs :=
  repeat match goal with
         | |- completes _ (_ >>> _) => apply then_completes; [|intros ? _]
         end.

Lemma visit_runs p n s : below_ok n → runs (TaintAnalyzer.visit (Some p) n s).
Proof.
  revert p s. induction n as [n IH] using node_children_ind. intros p s Hok.
  assert (∀ c s, c ∈ ast.iter_child_nodes n →
    runs (TaintAnalyzer.visit (Some n) c s)) as IHc.
  { intros c s' Hc. apply IH; [done|]. by eapply below_ok_child. }
  assert (∀ l, l ⊆ ast.iter_child_nodes n → ∀ s,
    runs (for_each (TaintAnalyzer.visit (Some n)) l s)) as IHs.
  { intros l Hl s'. apply for_each_completes; [done|]. intros c Hc s1 _.
    apply IHc. by apply Hl. }
  assert (∀ o, ast.opt_nodes o ⊆ ast.iter_child_nodes n → ∀ s,
    runs (TaintAnalyzer.visit_opt (TaintAnalyzer.visit (Some n)) o s)) as IHo.
  { intros [c|] Ho s'; simpl; [apply IHc, Ho; left|by eexists]. }
  destruct n; simpl in *.
  - apply IHs. set_solver.
  - split_runs; [by apply function_rule_runs|apply IHc|apply IHs|apply IHs|apply IHo];
      set_solver.
  - split_runs; [by apply return_rule_runs|apply IHo; set_solver].
  - split_runs; [|apply IHs|apply IHc]; try set_solver.
    apply assign_rules_runs. apply Hok. eapply descendant_child; [|constructor]. set_solver.
  - apply IHc. set_solver.
  - split_runs; apply IHc; set_solver.
  - split_runs; [|apply IHs; set_solver].
    apply for_each_completes; [done|]. intros [k|] Hk s' _; simpl; [|by eexists].
    apply IHc. apply elem_of_app. left. by apply elem_of_opt_nodes_concat.
  - destruct (callname_of_ok n args keywords lineno) as [callname ->];
      [apply Hok; constructor|].
    split_runs; [| | |apply IHc|apply IHs|apply IHs]; try set_solver.
    + unfold TaintAnalyzer.source_rule.
      case_bool_decide; [apply taint_parent_targets_runs|by eexists].
    + apply sink_rule_runs. intros arg Harg. eapply below_ok_child; [|done]. set_solver.
    + unfold TaintAnalyzer.propagation_rule.
      case_bool_decide; [apply taint_parent_targets_runs|by eexists].
  - by eexists.
  - apply IHc. set_solver.
  - split_runs; apply IHc; set_solver.
  - by eexists.
  - apply IHs. set_solver.
  - apply IHc. set_solver.
  - apply IHs. set_solver.
Qed.

(** The pass over a module raises neither [TypeError] nor [AttributeError],
    from any state, when every call target in it is an attribute chain on
    an identifier and every key of a dict literal is a string literal or an
    identifier: no slice of [get_name]'s [None], no key without [id], no
    missing [parent].  (An error of the interpreter itself, such as its
    recursion limit on a very deep tree, is outside the model.) *)
Theorem analyze_no_type_or_attribute_error body s s' :
  all_nodes node_ok (ast.Module_ body) = true →
  TaintAnalyzer.analyze (ast.Module_ body) s ≠ Abort TypeError s'
  ∧ TaintAnalyzer.analyze (ast.Module_ body) s ≠ Abort AttributeError s'.
Proof.
  intros Hok. rewrite all_nodes_spec in Hok.
  destruct (for_each_completes (λ _, True)
              (TaintAnalyzer.visit (Some (ast.Module_ body))) body s I)
    as (s1 & Hs1 & _).
  { intros c Hc s2 _. apply visit_runs.
    apply (below_ok_child (ast.Module_ body)); [exact Hc|exact Hok]. }
  unfold TaintAnalyzer.analyze. simpl. by rewrite Hs1.
Qed.

Lemma analyze_no_type_or_attribute_error_witness :
  TaintAnalyzer.analyze (ast.Module_ (file_a ++ file_b 3)) TaintAnalyzer.init
  ≠ Abort TypeError TaintAnalyzer.init
  ∧ TaintAnalyzer.analyze (ast.Module_ (file_a ++ file_b 3)) TaintAnalyzer.init
    ≠ Abort AttributeError TaintAnalyzer.init.
Proof. apply analyze_no_type_or_attribute_error. reflexivity. Defined.

(** ** The taint test along a pass *)

Lemma is_tainted_grows s s' n b :
  taint_grows s s' → TaintAnalyzer._is_tainted s n = Ok b →
  ∃ b', TaintAnalyzer._is_tainted s' n = Ok b' ∧ (b = true → b' = true).
Proof.
  intros (Hv & Hf & Hc). revert b.
  induction n; intros b Hb; simpl in *; try (injection Hb as <-; by eauto).
  - destruct (TaintAnalyzer._is_tainted s n1) as [[]|] eqn:H1; [| |done].
    + destruct (IHn1 true eq_refl) as (b1 & -> & Hb1). rewrite Hb1 by done. eauto.
    + destruct (IHn1 false eq_refl) as (b1 & -> & _). destruct b1; [eauto|].
      by apply IHn2.
  - destruct (callname_of n) as [callname|]; [|done]. injection Hb as <-.
    eexists; split; [done|]. intros Hin%bool_decide_eq_true.
    apply bool_decide_eq_true. by apply Hf.
  - destruct n1; try (injection Hb as <-; by eauto). injection Hb as <-.
    eexists; split; [done|]. intros Hin%bool_decide_eq_true.
    apply bool_decide_eq_true. by apply Hc.
  - injection Hb as <-. eexists; split; [done|]. intros Hin%bool_decide_eq_true.
    apply bool_decide_eq_true. by apply Hv.
Qed.

(** Once tainted, tainted for the rest of the pass: an expression that
    tests tainted in a state tests tainted after any further traversal,
    completed or aborted, started in that state.  (This holds although the
    element set of a collection can shrink: the test reads only the keys of
    the collections table.) *)
Theorem is_tainted_stays parent n s expr :
  TaintAnalyzer._is_tainted s expr = Ok true →
  TaintAnalyzer._is_tainted (final (TaintAnalyzer.visit parent n s)) expr = Ok true.
Proof.
  intros Ht.
  destruct (is_tainted_grows s (final (TaintAnalyzer.visit parent n s)) expr true)
    as (b' & -> & Hb'); [apply taint_writes_grows, visit_writes|done|].
  by rewrite Hb'.
Qed.

Lemma is_tainted_stays_witness :
  let s := final (TaintAnalyzer.analyze (ast.Module_ rebound_list) TaintAnalyzer.init) in
  let expr := ast.BinOp (ast.Str "a") (ast.Subscript (ast.Name "lst") (ast.Name "i")) in
  TaintAnalyzer._is_tainted
    (final (TaintAnalyzer.visit None (ast.Module_ (file_b 5)) s)) expr = Ok true.
Proof. intros s expr. apply is_tainted_stays. reflexivity. Defined.

(** ** Tainted elements of list and dict literals *)

Lemma extract_list_elem s elts x :
  x ∈ TaintAnalyzer.extract_list s elts
  ↔ ast.Name x ∈ elts ∧ x ∈ TaintAnalyzer.tainted_vars s.
Proof.
  unfold TaintAnalyzer.extract_list.
  assert (∀ acc : gset string,
    x ∈ foldl (λ tainted_elements elt,
                 match elt with
                 | ast.Name id =>
                     if bool_decide (id ∈ TaintAnalyzer.tainted_vars s)
                     then {[ id ]} ∪ tainted_elements else tainted_elements
                 | _ => tainted_elements
                 end) acc elts
    ↔ x ∈ acc ∨ (ast.Name x ∈ elts ∧ x ∈ TaintAnalyzer.tainted_vars s)) as Hfold.
  { induction elts as [|elt elts IH]; intros acc; simpl.
    - split; [by left|]. by intros [?|[?%elem_of_nil _]].
    - rewrite IH, elem_of_cons. destruct elt; try naive_solver.
      case_bool_decide; set_unfold; naive_solver. }
  rewrite Hfold. set_solver.
Qed.

(** For a list literal [_extract_tainted_elements] returns exactly the
    identifiers among the elements that are tainted at that moment; other
    elements, such as calls of a taint source, contribute nothing. *)
Theorem extract_list_tainted_identifiers s elts :
  ∃ elements,
    TaintAnalyzer._extract_tainted_elements s (ast.List elts) = Ok elements
    ∧ elements ⊆ TaintAnalyzer.tainted_vars s
    ∧ ∀ x, x ∈ elements ↔ ast.Name x ∈ elts ∧ x ∈ TaintAnalyzer.tainted_vars s.
Proof.
  eexists. split; [done|]. split.
  - intros x Hx. by apply extract_list_elem in Hx as [_ ?].
  - apply extract_list_elem.
Qed.

(** The name a dict key contributes: the value of a string literal or the
    identifier. *)
Definition key_name (key : option ast.node) : option string :=
  match key with
  | Some (ast.Str k) => Some k
  | Some (ast.Name k) => Some k
  | _ => None
  end.

(** The entry [key: value] has a tainted identifier as its value. *)
Definition tainted_entry (s : TaintAnalyzer.t) (value : ast.node) : bool :=
  match value with
  | ast.Name id => bool_decide (id ∈ TaintAnalyzer.tainted_vars s)
  | _ => false
  end.

Lemma extract_dict_spec s keys values acc :
  TaintAnalyzer.extract_dict s keys values acc
  = match keys, values with
    | key :: keys', value :: values' =>
        if tainted_entry s value then
          match key_name key with
          | Some k => TaintAnalyzer.extract_dict s keys' values' ({[ k ]} ∪ acc)
          | None => Raise AttributeError
          end
        else TaintAnalyzer.extract_dict s keys' values' acc
    | _, _ => Ok acc
    end.
Proof.
  destruct keys as [|key keys], values as [|value values]; try done.
  simpl. destruct value; simpl; try done.
  case_bool_decide; [|done]. by destruct key as [[]|].
Qed.

(** For a dict literal [_extract_tainted_elements] pairs keys with values
    up to the shorter of the two lists.  It raises [AttributeError] iff
    some paired entry has a tainted identifier as value and a key that is
    neither a string literal nor an identifier; otherwise it returns the
    names of the keys of the entries whose value is a tainted identifier. *)
Theorem extract_dict_tainted_keys s keys values :
  let entries := zip keys values in
  if forallb (λ entry, negb (tainted_entry s entry.2) || bool_decide (is_Some (key_name entry.1)))
       entries
  then ∃ elements,
         TaintAnalyzer._extract_tainted_elements s (ast.Dict keys values) = Ok elements
         ∧ ∀ k, k ∈ elements
                ↔ ∃ key value, (key, value) ∈ entries ∧ tainted_entry s value = true
                               ∧ key_name key = Some k
  else TaintAnalyzer._extract_tainted_elements s (ast.Dict keys values)
       = Raise AttributeError.
Proof.
  simpl.
  assert (∀ acc : gset string,
    if forallb (λ entry, negb (tainted_entry s entry.2)
                         || bool_decide (is_Some (key_name entry.1))) (zip keys values)
    then ∃ elements,
           TaintAnalyzer.extract_dict s keys values acc = Ok elements
           ∧ ∀ k, k ∈ elements
                  ↔ k ∈ acc ∨ ∃ key value, (key, value) ∈ zip keys values
                                           ∧ tainted_entry s value = true
                                           ∧ key_name key = Some k
    else TaintAnalyzer.extract_dict s keys values acc = Raise AttributeError) as Hloop.
  { revert values. induction keys as [|key keys IH]; intros values acc.
    { simpl. eexists; split; [done|]. intros k. split; [by left|].
      by intros [?|(? & ? & ?%elem_of_nil & _)]. }
    destruct values as [|value values].
    { simpl. eexists; split; [done|]. intros k. split; [by left|].
      by intros [?|(? & ? & ?%elem_of_nil & _)]. }
    rewrite extract_dict_spec. simpl.
    destruct (tainted_entry s value) eqn:Ht; simpl.
    - destruct (key_name key) as [k0|] eqn:Hk; simpl; [|done].
      rewrite ?bool_decide_eq_true_2 by eauto. simpl.
      specialize (IH values ({[ k0 ]} ∪ acc)).
      destruct (forallb _ (zip keys values)); [|done].
      destruct IH as (elements & -> & Helem). eexists; split; [done|].
      intros k. rewrite Helem. set_unfold. split.
      + intros [[->|?]|(key' & value' & ? & ? & ?)]; [right|by left|right].
        * exists key, value. eauto.
        * exists key', value'. eauto.
      + intros [?|(key' & value' & [[= -> ->]|?] & ? & ?)]; [by left; right| |].
        * left; left. congruence.
        * right. eauto.
    - specialize (IH values acc).
      destruct (forallb _ (zip keys values)); [|done].
      destruct IH as (elements & -> & Helem). eexists; split; [done|].
      intros k. rewrite Helem. set_unfold. split.
      + intros [?|(key' & value' & ? & ? & ?)]; [by left|right].
        exists key', value'. eauto.
      + intros [?|(key' & value' & [[= -> ->]|?] & ? & ?)]; [by left|congruence|].
        right. eauto. }
  specialize (Hloop ∅). destruct (forallb _ (zip keys values)); [|done].
  destruct Hloop as (elements & -> & Helem). eexists; split; [done|].
  intros k. rewrite Helem. set_solver.
Qed.

(** ** The call-graph traversal, node by node *)

Lemma then_for_each_app {A S} (f : A → S → outcome S) (l k : list A) (o : outcome S) :
  o >>> for_each f (l ++ k) = o >>> for_each f l >>> for_each f k.
Proof. destruct o; simpl; [apply for_each_app|done]. Qed.

Lemma then_for_each_cons {A S} (f : A → S → outcome S) (x : A) (l : list A)
    (o : outcome S) :
  o >>> for_each f (x :: l) = o >>> f x >>> for_each f l.
Proof. by destruct o. Qed.

Lemma then_for_each_nil {A S} (f : A → S → outcome S) (o : outcome S) :
  o >>> for_each f [] = o.
Proof. by destruct o. Qed.

Lemma then_Done {S} (o : outcome S) : o >>> Done = o.
Proof. by destruct o. Qed.

Lemma cg_then_for_each_opt f (r : option ast.node) (o : outcome CallGraphBuilder.t) :
  o >>> for_each f (ast.opt_nodes r) = o >>> CallGraphBuilder.visit_opt f r.
Proof.
  destruct o as [s|]; [|done]. destruct r as [n|]; simpl; [|done].
  by destruct (f n s).
Qed.

Lemma cg_then_for_each_keys f (keys : list (option ast.node))
    (o : outcome CallGraphBuilder.t) :
  o >>> for_each f (concat (ast.opt_nodes <$> keys))
  = o >>> for_each (CallGraphBuilder.visit_opt f) keys.
Proof.
  destruct o as [s|]; [|done]. simpl. revert s.
  induction keys as [|[k|] keys IH]; intros s; simpl; [done| |apply IH].
  destruct (f k s); simpl; [apply IH|done].
Qed.

(** The statements of a handler before its [generic_visit]. *)
Definition cg_before (n : ast.node) (s : CallGraphBuilder.t) : outcome CallGraphBuilder.t :=
  match n with
  | ast.FunctionDef name _ _ _ _ => Done (CallGraphBuilder.enter_function name s)
  | ast.Call func _ _ _ => CallGraphBuilder.call_rule func s
  | _ => Done s
  end.

(** The statements of a handler after its [generic_visit]. *)
Definition cg_after (n : ast.node) (s : CallGraphBuilder.t) : outcome CallGraphBuilder.t :=
  match n with
  | ast.FunctionDef _ _ _ _ _ => CallGraphBuilder.reset_function s
  | _ => Done s
  end.

(** Every visit is the handler's own statements around a visit of each
    child, in the order of [ast.iter_child_nodes]. *)
Lemma cg_visit_children n s :
  CallGraphBuilder.visit n s
  = cg_before n s >>> for_each CallGraphBuilder.visit (ast.iter_child_nodes n)
    >>> cg_after n.
Proof.
  destruct n; cbn [cg_before cg_after ast.iter_child_nodes CallGraphBuilder.visit];
    rewrite ?then_for_each_cons, ?then_for_each_app, ?then_for_each_cons,
      ?cg_then_for_each_opt, ?cg_then_for_each_keys, ?then_for_each_nil;
    cbn [then_]; try done.
  all: symmetry; exact (then_Done _).
Qed.

Section cg_write.
Context (F C : string → Prop).

(** The three writes of the builder: entering a function whose name
    satisfies [F], adding a callee that satisfies [C] to the entry of the
    current function, leaving a function. *)
Inductive cg_write : relation CallGraphBuilder.t :=
| cg_enter name s :
    F name → cg_write s (CallGraphBuilder.enter_function name s)
| cg_add f callee calls s :
    C callee → CallGraphBuilder.call_graph s !! f = Some calls →
    cg_write s (CallGraphBuilder.mk (<[f := {[ callee ]} ∪ calls]> (CallGraphBuilder.call_graph s))
                  (CallGraphBuilder.current_function s))
| cg_leave s :
    cg_write s (CallGraphBuilder.mk (CallGraphBuilder.call_graph s) None).

Definition cg_writes : relation CallGraphBuilder.t := rtc cg_write.

#[local] Instance cg_writes_preorder : PreOrder cg_writes.
Proof. unfold cg_writes. apply _. Qed.

(** Entries are never removed and never lose a callee. *)
Lemma cg_writes_grow s s' f calls :
  cg_writes s s' → CallGraphBuilder.call_graph s !! f = Some calls →
  ∃ calls', CallGraphBuilder.call_graph s' !! f = Some calls' ∧ calls ⊆ calls'.
Proof.
  intros Hw. revert calls. induction Hw as [s|s s1 s' Hw _ IH]; intros calls Hf; [eauto|].
  assert (∃ calls1, CallGraphBuilder.call_graph s1 !! f = Some calls1 ∧ calls ⊆ calls1)
    as (calls1 & Hf1 & Hsub).
  { destruct Hw as [name s|f0 callee calls0 s|s]; simpl; [| |eauto].
    - case_bool_decide as Hin; [eauto|]. exists calls. split; [|done].
      rewrite lookup_insert_ne; [done|]. intros ->. apply Hin, elem_of_dom. eauto.
    - destruct (decide (f0 = f)) as [->|Hne].
      + rewrite lookup_insert_eq. eexists; split; [done|]. set_solver.
      + rewrite lookup_insert_ne by done. eauto. }
  destruct (IH _ Hf1) as (calls' & Hf' & Hsub'). exists calls'. split; [done|]. set_solver.
Qed.

(** New keys satisfy [F]; new callees satisfy [C]. *)
Lemma cg_writes_origin s s' f calls' :
  cg_writes s s' → CallGraphBuilder.call_graph s' !! f = Some calls' →
  (f ∈ dom (CallGraphBuilder.call_graph s) ∨ F f)
  ∧ ∀ callee, callee ∈ calls' →
      (∃ calls, CallGraphBuilder.call_graph s !! f = Some calls ∧ callee ∈ calls)
      ∨ C callee.
Proof.
  induction 1 as [s|s s1 s' Hw _ IH]; intros Hf.
  { split; [left; apply elem_of_dom; eauto|]. intros callee Hc. left. eauto. }
  destruct (IH Hf) as [Hkey Hcallee]. clear IH. split.
  - destruct Hkey as [Hkey|?]; [|by right].
    destruct Hw as [name s|f0 callee calls0 s Hc Hf0|s]; simpl in *; [| |by left].
    + case_bool_decide; [by left|]. rewrite dom_insert_L in Hkey.
      apply elem_of_union in Hkey as [->%elem_of_singleton|?]; [by right|by left].
    + rewrite dom_insert_L in Hkey.
      apply elem_of_union in Hkey as [->%elem_of_singleton|?]; [|by left].
      left. apply elem_of_dom. eauto.
  - intros callee Hin. destruct (Hcallee callee Hin) as [(calls1 & Hf1 & Hin1)|?];
      [|by right].
    destruct Hw as [name s|f0 callee0 calls0 s Hc Hf0|s]; simpl in *; [| |left; eauto].
    + case_bool_decide; [left; eauto|].
      destruct (decide (name = f)) as [->|Hne].
      * rewrite lookup_insert_eq in Hf1. injection Hf1 as <-. set_solver.
      * rewrite lookup_insert_ne in Hf1 by done. left. eauto.
    + destruct (decide (f0 = f)) as [->|Hne].
      * rewrite lookup_insert_eq in Hf1. injection Hf1 as <-.
        apply elem_of_union in Hin1 as [->%elem_of_singleton|?]; [by right|left; eauto].
      * rewrite lookup_insert_ne in Hf1 by done. left. eauto.
Qed.

End cg_write.

Lemma cg_writes_weaken (F F' C C' : string → Prop) s s' :
  (∀ f, F f → F' f) → (∀ c, C c → C' c) →
  cg_writes F C s s' → cg_writes F' C' s s'.
Proof.
  intros HF HC. induction 1 as [s|s s1 s' Hw _ IH]; [constructor|].
  eapply rtc_l; [|exact IH]. destruct Hw; econstructor; eauto.
Qed.

(** The name recorded for a call: the identifier of a direct call, the last
    attribute of an attribute call. *)
Definition call_target (func : ast.node) (callee : string) : Prop :=
  func = ast.Name callee ∨ ∃ value, func = ast.Attribute value callee.

Definition target_below (n : ast.node) (callee : string) : Prop :=
  ∃ func args keywords lineno,
    descendant (ast.Call func args keywords lineno) n ∧ call_target func callee.

Lemma cg_before_writes n s :
  cg_writes (defined_below n) (target_below n) s (final (cg_before n s)).
Proof.
  destruct n; simpl; try reflexivity.
  - apply rtc_once. constructor. eexists _, _, _, _. constructor.
  - unfold CallGraphBuilder.call_rule.
    destruct (CallGraphBuilder.truthy _) as [f|]; [|reflexivity].
    assert (∀ callee, call_target n callee →
      cg_writes (defined_below (ast.Call n args keywords lineno))
        (target_below (ast.Call n args keywords lineno))
        s (final (CallGraphBuilder.add_callee f callee s))) as Hadd.
    { intros callee Htarget. unfold CallGraphBuilder.add_callee.
      destruct (CallGraphBuilder.call_graph s !! f) as [calls|] eqn:Hf; [|reflexivity].
      apply rtc_once. econstructor; [|done]. eexists _, _, _, _. split; [constructor|done]. }
    destruct n; try reflexivity; apply Hadd; [right; eauto|by left].
Qed.

Lemma cg_after_writes n s :
  cg_writes (defined_below n) (target_below n) s (final (cg_after n s)).
Proof. destruct n; simpl; try reflexivity. apply rtc_once. constructor. Qed.

Lemma target_below_child n c callee :
  c ∈ ast.iter_child_nodes n → target_below c callee → target_below n callee.
Proof.
  intros Hc (f & a & k & l & Hd & Ht). exists f, a, k, l.
  split; [by eapply descendant_child|done].
Qed.

(** A traversal of the builder, completed or aborted, is a sequence of
    writes for functions defined and calls made at or below the node. *)
Lemma cg_visit_writes n s :
  cg_writes (defined_below n) (target_below n) s (final (CallGraphBuilder.visit n s)).
Proof.
  revert s. induction n as [n IH] using node_children_ind. intros s.
  rewrite cg_visit_children.
  apply (then_final (cg_writes _ _)); [|intros s'; apply cg_after_writes].
  apply (then_final (cg_writes _ _)); [apply cg_before_writes|].
  intros s'. apply (for_each_final (cg_writes _ _)). intros c Hc s1.
  eapply cg_writes_weaken; [| |by apply IH].
  - intros f. by apply defined_below_child.
  - intros callee. by apply target_below_child.
Qed.

(** ** What the call graph of a file holds *)

Lemma cg_visit_grow n s f calls :
  CallGraphBuilder.call_graph s !! f = Some calls →
  ∃ calls', CallGraphBuilder.call_graph (final (CallGraphBuilder.visit n s)) !! f
            = Some calls'
            ∧ calls ⊆ calls'.
Proof. intros Hf. eapply cg_writes_grow; [apply cg_visit_writes|done]. Qed.

(** During a traversal of the builder, completed or aborted, no entry of
    the graph is removed and no entry loses a callee. *)
Theorem call_graph_entries_grow n s f calls :
  CallGraphBuilder.call_graph s !! f = Some calls →
  ∃ calls', CallGraphBuilder.call_graph (final (CallGraphBuilder.visit n s)) !! f
            = Some calls'
            ∧ calls ⊆ calls'.
Proof. apply cg_visit_grow. Qed.

Lemma call_graph_entries_grow_witness :
  let s := final (CallGraphBuilder.visit nested_functions CallGraphBuilder.init) in
  ∃ calls', CallGraphBuilder.call_graph
              (final (CallGraphBuilder.visit (ast.Module_ file_a) s)) !! "inner"
            = Some calls'
            ∧ {[ "helper" ]} ⊆ calls'.
Proof.
  intros s. apply (call_graph_entries_grow (ast.Module_ file_a) s "inner" {[ "helper" ]}).
  vm_compute. reflexivity.
Defined.


Lemma for_each_reach {A S} (I Q : S → Prop) (f : A → S → outcome S) (l : list A)
    (c : A) (s : S) :
  (∀ x, x ∈ l → ∀ s, I s → completes I (f x s)) →
  (∀ x, x ∈ l → ∀ s, Q s → Q (final (f x s))) →
  (∀ s, I s → Q (final (f c s))) →
  I s → c ∈ l → Q (final (for_each f l s)).
Proof.
  intros Hrun Hkeep Hc. revert s.
  assert (∀ l', l' ⊆ l → ∀ s, Q s → Q (final (for_each f l' s))) as Hkeeps.
  { intros l' Hl' s' Hs'. revert s' Hs'.
    induction l' as [|x l' IH]; intros s' Hs'; simpl; [done|].
    pose proof (Hkeep x ltac:(set_solver) s' Hs') as Hx.
    destruct (f x s') as [s1|e s1]; simpl in *; [|done]. apply IH; [set_solver|done]. }
  induction l as [|x l IH]; intros s Hs Hin; [by apply elem_of_nil in Hin|].
  simpl. destruct (Hrun x ltac:(left) s Hs) as (s1 & Hs1 & HI1). rewrite Hs1. simpl.
  apply elem_of_cons in Hin as [->|Hin].
  - apply Hkeeps; [set_solver|]. specialize (Hc s Hs). by rewrite Hs1 in Hc.
  - apply IH; try done.
    + intros y Hy. apply Hrun. by right.
    + intros y Hy. apply Hkeep. by right.
    + intros l' Hl'. apply Hkeeps. set_solver.
Qed.






(** Every callee in a file's call graph is the name of a call in the file:
    the identifier of a direct call or the last attribute of an attribute
    call.  Calls on other targets, such as [f()()], add nothing. *)
Theorem call_graph_callees_are_calls tree f calls callee :
  file_call_graph tree !! f = Some calls → callee ∈ calls →
  target_below tree callee.
Proof.
  unfold file_call_graph. intros Hf Hin.
  destruct (cg_writes_origin _ _ _ _ f calls
              (cg_visit_writes tree CallGraphBuilder.init) Hf) as [_ Hcallee].
  destruct (Hcallee callee Hin) as [(calls0 & Hf0 & _)|?]; [|done].
  simpl in Hf0. by rewrite lookup_empty in Hf0.
Qed.

Lemma call_graph_callees_are_calls_witness :
  target_below nested_functions "helper".
Proof.
  apply (call_graph_callees_are_calls nested_functions "inner" {[ "helper" ]}).
  - vm_compute. reflexivity.
  - apply (bool_decide_unpack _). vm_compute. exact I.
Defined.

(** ** Calls of a function without nested definitions *)

Definition not_def (n : ast.node) : bool :=
  match n with ast.FunctionDef _ _ _ _ _ => false | _ => true end.

(** The callees recorded for [f]. *)
Definition callees (f : string) (s : CallGraphBuilder.t) : gset string :=
  default ∅ (CallGraphBuilder.call_graph s !! f).

(** The builder is inside function [f]. *)
Definition inside (f : string) (s : CallGraphBuilder.t) : Prop :=
  CallGraphBuilder.current_function s = Some f
  ∧ f ∈ dom (CallGraphBuilder.call_graph s).

Lemma callees_kept n s f callee :
  callee ∈ callees f s → callee ∈ callees f (final (CallGraphBuilder.visit n s)).
Proof.
  unfold callees. destruct (CallGraphBuilder.call_graph s !! f) as [calls|] eqn:Hf;
    simpl; [|by intros ?%elem_of_empty].
  destruct (cg_visit_grow n s f calls Hf) as (calls' & -> & Hsub).
  simpl. apply Hsub.
Qed.

Lemma callees_kept_for_each l s f callee :
  callee ∈ callees f s →
  callee ∈ callees f (final (for_each CallGraphBuilder.visit l s)).
Proof.
  revert s. induction l as [|x xs IH]; intros s Hin; simpl; [done|].
  pose proof (callees_kept x s f callee Hin) as Hx.
  destruct (CallGraphBuilder.visit x s) as [s0|e s0]; [apply IH, Hx|exact Hx].
Qed.

Lemma truthy_nonempty f : f ≠ "" → CallGraphBuilder.truthy (Some f) = Some f.
Proof. by destruct f. Qed.

Lemma add_callee_inside f callee s :
  inside f s →
  ∃ s', CallGraphBuilder.add_callee f callee s = Done s'
        ∧ inside f s' ∧ callee ∈ callees f s'.
Proof.
  intros [Hcf [calls Hf]%elem_of_dom]. unfold CallGraphBuilder.add_callee. rewrite Hf.
  eexists; split; [done|]. split.
  - split; [done|]. simpl. rewrite dom_insert_L. apply elem_of_union. left.
    by apply elem_of_singleton.
  - unfold callees. simpl. rewrite lookup_insert_eq. simpl. set_solver.
Qed.

Lemma cg_before_inside f n s :
  f ≠ "" → not_def n = true → inside f s →
  ∃ s', cg_before n s = Done s' ∧ inside f s'
        ∧ ∀ func args keywords lineno callee,
            n = ast.Call func args keywords lineno → call_target func callee →
            callee ∈ callees f s'.
Proof.
  intros Hf Hn Hs. destruct n; try done; simpl;
    try (exists s; split; [done|]; split; [done|]; by intros).
  unfold CallGraphBuilder.call_rule. destruct Hs as [Hcf Hdom].
  rewrite Hcf, truthy_nonempty by done.
  destruct n;
    try (exists s; split; [done|]; split; [done|];
         intros ????? [= <- _ _ _] [?|[? ?]]; done).
  - destruct (add_callee_inside f attr s) as (s' & -> & Hs' & Hin); [done|].
    exists s'. split; [done|]. split; [done|].
    by intros ????? [= <- _ _ _] [?|[? [= _ <-]]].
  - destruct (add_callee_inside f id s) as (s' & -> & Hs' & Hin); [done|].
    exists s'. split; [done|]. split; [done|].
    by intros ????? [= <- _ _ _] [[= <-]|[? ?]].
Qed.

Lemma target_below_inv n callee :
  target_below n callee →
  (∃ func args keywords lineno,
      n = ast.Call func args keywords lineno ∧ call_target func callee)
  ∨ ∃ c, c ∈ ast.iter_child_nodes n ∧ target_below c callee.
Proof.
  intros (f & a & k & l & Hd & Ht). apply descendant_inv in Hd as [<-|(c & Hc & Hd)].
  - left. eauto 10.
  - right. exists c. split; [done|]. by exists f, a, k, l.
Qed.

Lemma for_each_inside f l s :
  inside f s →
  (∀ c, c ∈ l → ∀ s, inside f s →
     completes (inside f) (CallGraphBuilder.visit c s)
     ∧ ∀ callee, target_below c callee →
         callee ∈ callees f (final (CallGraphBuilder.visit c s))) →
  completes (inside f) (for_each CallGraphBuilder.visit l s)
  ∧ ∀ c callee, c ∈ l → target_below c callee →
      callee ∈ callees f (final (for_each CallGraphBuilder.visit l s)).
Proof.
  intros Hs Hl. split.
  - apply for_each_completes; [done|]. intros c Hc s' Hs'. by apply Hl.
  - intros c callee Hc Ht.
    apply (for_each_reach (inside f) (λ s, callee ∈ callees f s) _ _ c); try done.
    + intros x Hx s' Hs'. by apply Hl.
    + intros x _ s' Hs'. by apply callees_kept.
    + intros s' Hs'. by apply Hl.
Qed.

Lemma visit_inside f n s :
  f ≠ "" → all_nodes not_def n = true → inside f s →
  completes (inside f) (CallGraphBuilder.visit n s)
  ∧ ∀ callee, target_below n callee →
      callee ∈ callees f (final (CallGraphBuilder.visit n s)).
Proof.
  intros Hf. revert s. induction n as [n IH] using node_children_ind.
  intros s Hn Hs. rewrite all_nodes_spec in Hn.
  destruct (cg_before_inside f n s) as (s1 & Hs1 & Hin1 & Hcall);
    [done|apply Hn; constructor|done|].
  destruct (for_each_inside f (ast.iter_child_nodes n) s1 Hin1) as [Hrun Hrec].
  { intros c Hc s' Hs'. apply IH; [done| |done].
    apply all_nodes_spec. intros d Hd. apply Hn. by eapply descendant_child. }
  destruct Hrun as (s2 & Hs2 & Hin2).
  assert (CallGraphBuilder.visit n s = Done s2) as Hvisit.
  { rewrite cg_visit_children, Hs1. simpl. rewrite Hs2. simpl.
    specialize (Hn n (descendant_self n)). by destruct n. }
  rewrite Hvisit. split; [by exists s2|]. simpl.
  intros callee [(func & a & k & l & -> & Ht)|(c & Hc & Ht)]%target_below_inv.
  - assert (callee ∈ callees f s1) as Hin by by eapply Hcall.
    replace s2 with (final (for_each CallGraphBuilder.visit
      (ast.iter_child_nodes (ast.Call func a k l)) s1)) by by rewrite Hs2.
    by apply callees_kept_for_each.
  - specialize (Hrec c callee Hc Ht). by rewrite Hs2 in Hrec.
Qed.

(** A function without nested definitions gets every call made in it: for
    a [def f] (with a non-empty name) that has no function definition
    below it, visited in a state in which the builder's current function
    is registered, when the visit completes the entry of [f] holds the name
    of every call below the definition, those in its decorators, argument
    defaults and annotations included. *)
Theorem flat_function_calls_recorded f args body decorator_list returns s s' callee :
  let n := ast.FunctionDef f args body decorator_list returns in
  CallGraphBuilder.visit n s = Done s' →
  f ≠ "" → registered s →
  forallb (all_nodes not_def) (ast.iter_child_nodes n) = true →
  target_below n callee →
  ∃ calls, CallGraphBuilder.call_graph s' !! f = Some calls ∧ callee ∈ calls.
Proof.
  intros n Hdone Hf Hs Hflat Ht. rewrite forallb_forall in Hflat.
  set (s1 := CallGraphBuilder.enter_function f s).
  assert (inside f s1) as Hin1.
  { split; [done|]. simpl. case_bool_decide; [done|]. rewrite dom_insert_L.
    apply elem_of_union. left. by apply elem_of_singleton. }
  destruct (for_each_inside f (ast.iter_child_nodes n) s1 Hin1) as [Hrun Hrec].
  { intros c Hc s0 Hs0. apply visit_inside; [done| |done].
    by apply Hflat, list_elem_of_In. }
  destruct Hrun as (s2 & Hs2 & Hin2).
  apply target_below_inv in Ht as [(? & ? & ? & ? & [=] & _)|(c & Hc & Ht)].
  specialize (Hrec c callee Hc Ht). rewrite Hs2 in Hrec. simpl in Hrec.
  unfold callees in Hrec.
  destruct (CallGraphBuilder.call_graph s2 !! f) as [calls|] eqn:Hcalls;
    [|by apply elem_of_empty in Hrec].
  exists calls. split; [|done].
  rewrite (cg_visit_children n s) in Hdone.
  assert (for_each CallGraphBuilder.visit (ast.iter_child_nodes n) s1 >>> cg_after n
          = Done s') as Hdone' by exact Hdone.
  rewrite Hs2 in Hdone'. simpl in Hdone'. by injection Hdone' as <-.
Qed.

(** [def run(cmd): os.system(cmd); log(cmd)] with a decorator call. *)
Definition flat_function : ast.node :=
  ast.FunctionDef "run" (ast.Other [])
    [ast.Expr (ast.Call (ast.Attribute (ast.Name "os") "system") [ast.Name "cmd"] [] 2);
     ast.Expr (ast.Call (ast.Name "log") [ast.Name "cmd"] [] 3)]
    [ast.Call (ast.Name "cached") [] [] 1] None.

Lemma flat_function_calls_recorded_witness :
  ∃ calls,
    CallGraphBuilder.call_graph
      (final (CallGraphBuilder.visit flat_function CallGraphBuilder.init)) !! "run"
    = Some calls
    ∧ "system" ∈ calls.
Proof.
  apply (flat_function_calls_recorded "run" (ast.Other [])
           [ast.Expr (ast.Call (ast.Attribute (ast.Name "os") "system")
                        [ast.Name "cmd"] [] 2);
            ast.Expr (ast.Call (ast.Name "log") [ast.Name "cmd"] [] 3)]
           [ast.Call (ast.Name "cached") [] [] 1] None CallGraphBuilder.init
           (final (CallGraphBuilder.visit flat_function CallGraphBuilder.init)) "system").
  - vm_compute. reflexivity.
  - discriminate.
  - intros f Hf. discriminate Hf.
  - reflexivity.
  - exists (ast.Attribute (ast.Name "os") "system"), [ast.Name "cmd"], [], 2%Z.
    split; [|right; by eexists].
    eapply descendant_child; [|eapply descendant_child; [|constructor]].
    + right. left.
    + left.
Defined.

(** ** The global call graph, file by file *)

Lemma merge_files_other files g file_name :
  file_name ∉ files.*1 → merge_files files g !! file_name = g !! file_name.
Proof.
  revert g. induction files as [|[f tree] files IH]; intros g Hnot; [done|].
  simpl in *. apply not_elem_of_cons in Hnot as [Hne Hnot].
  rewrite IH by done. rewrite merge_graph_spec.
  case_decide; [done|]. by rewrite lookup_insert_ne.
Qed.

(** After a completed [build_call_graph] on the items of a dict, run on a
    builder that holds the graph [g]: a file that is not among the items
    keeps the entry it had; a file without function definitions keeps it
    too (a fresh builder gets no entry for such a file); any other file
    maps to its own call graph, laid over the functions that [g] already
    had for that file name. *)
Theorem build_call_graph_lookup files g g' file_name :
  NoDup files.*1 →
  MultiFileCallGraphBuilder.build_call_graph files g = Done g' →
  (file_name ∉ files.*1 → g' !! file_name = g !! file_name)
  ∧ ∀ tree, (file_name, tree) ∈ files →
      g' !! file_name
      = if decide (file_call_graph tree = ∅) then g !! file_name
        else Some (file_call_graph tree ∪ default ∅ (g !! file_name)).
Proof.
  intros Hdup. rewrite build_call_graph_done. intros [= <-].
  split; [apply merge_files_other|].
  intros tree Hin. revert g.
  induction files as [|[f t] files IH]; intros g; [by apply elem_of_nil in Hin|].
  simpl in *. apply NoDup_cons in Hdup as [Hnot Hdup].
  apply elem_of_cons in Hin as [[= <- <-]|Hin].
  - rewrite merge_files_other by done. rewrite merge_graph_spec.
    case_decide; [done|]. by rewrite lookup_insert_eq.
  - assert (f ≠ file_name) as Hne.
    { intros ->. apply Hnot. apply list_elem_of_fmap. by exists (file_name, tree). }
    rewrite IH by done. rewrite merge_graph_spec.
    destruct (decide (file_call_graph t = ∅)); [done|]. by rewrite lookup_insert_ne.
Qed.

Lemma build_call_graph_lookup_witness :
  let files := [("a.py", nested_functions); ("b.py", bare_input)] in
  let g' := final (MultiFileCallGraphBuilder.build_call_graph files
                     MultiFileCallGraphBuilder.init) in
  ("b.py" ∉ files.*1 → g' !! "b.py" = MultiFileCallGraphBuilder.init !! "b.py")
  ∧ ∀ tree, ("b.py", tree) ∈ files →
      g' !! "b.py"
      = if decide (file_call_graph tree = ∅)
        then MultiFileCallGraphBuilder.init !! "b.py"
        else Some (file_call_graph tree
                   ∪ default ∅ (MultiFileCallGraphBuilder.init !! "b.py")).
Proof.
  intros files g'. apply (build_call_graph_lookup files MultiFileCallGraphBuilder.init).
  - apply (bool_decide_unpack _). vm_compute. exact I.
  - vm_compute. reflexivity.
Defined.

(** ** The taint aggregator, file by file *)

(** The state of a fresh per-file analyzer after its pass over [tree]. *)
Definition local_pass (tree : ast.node) : TaintAnalyzer.t :=
  final (TaintAnalyzer.analyze tree TaintAnalyzer.init).

Lemma analyze_file_done file_name tree m m' :
  MultiFileTaintAnalyzer.analyze_file file_name tree m = Done m' →
  m' = MultiFileTaintAnalyzer.absorb file_name (local_pass tree) m.
Proof.
  unfold MultiFileTaintAnalyzer.analyze_file, local_pass.
  destruct (TaintAnalyzer.analyze tree TaintAnalyzer.init); [|done]. by intros [= <-].
Qed.

(** A completed run of [analyze_files] adds up the per-file passes: the
    issues are those the aggregator held, followed by the issues of each
    file in the order of the files; the global tainted variables are those
    it held, joined with the tainted variables of every file; the per-file
    table gets a key for each file name. *)
Theorem analyze_files_adds_up files m0 m :
  MultiFileTaintAnalyzer.analyze_files files m0 = Done m →
  MultiFileTaintAnalyzer.issues m
  = MultiFileTaintAnalyzer.issues m0
    ++ concat ((λ file, TaintAnalyzer.issues (local_pass file.2)) <$> files)
  ∧ MultiFileTaintAnalyzer.tainted_vars m
    = MultiFileTaintAnalyzer.tainted_vars m0
      ∪ ⋃ ((λ file, TaintAnalyzer.tainted_vars (local_pass file.2)) <$> files)
  ∧ dom (MultiFileTaintAnalyzer.filewise_taint m)
    = dom (MultiFileTaintAnalyzer.filewise_taint m0) ∪ list_to_set files.*1.
Proof.
  unfold MultiFileTaintAnalyzer.analyze_files. revert m0.
  induction files as [|[file_name tree] files IH]; intros m0 Hrun; simpl in *.
  - injection Hrun as <-. rewrite app_nil_r. split_and!; [done|set_solver..].
  - destruct (MultiFileTaintAnalyzer.analyze_file file_name tree m0) as [m1|e m1] eqn:H1;
      [|done].
    apply analyze_file_done in H1 as ->. simpl in Hrun.
    destruct (IH _ Hrun) as (Hi & Hv & Hd). rewrite Hi, Hv, Hd. simpl.
    rewrite dom_insert_L. split_and!; [by rewrite app_assoc|set_solver..].
Qed.

Lemma analyze_files_adds_up_witness :
  ∃ m, MultiFileTaintAnalyzer.issues m
       = MultiFileTaintAnalyzer.issues MultiFileTaintAnalyzer.init
         ++ concat ((λ file, TaintAnalyzer.issues (local_pass file.2))
                      <$> [("a.py", source_to_sink 1 2); ("b.py", safe_list)])
       ∧ MultiFileTaintAnalyzer.tainted_vars m
         = MultiFileTaintAnalyzer.tainted_vars MultiFileTaintAnalyzer.init
           ∪ ⋃ ((λ file, TaintAnalyzer.tainted_vars (local_pass file.2))
                  <$> [("a.py", source_to_sink 1 2); ("b.py", safe_list)])
       ∧ dom (MultiFileTaintAnalyzer.filewise_taint m)
         = dom (MultiFileTaintAnalyzer.filewise_taint MultiFileTaintAnalyzer.init)
           ∪ list_to_set [("a.py", source_to_sink 1 2); ("b.py", safe_list)].*1.
Proof.
  eexists.
  apply (analyze_files_adds_up [("a.py", source_to_sink 1 2); ("b.py", safe_list)]
           MultiFileTaintAnalyzer.init).
  vm_compute. reflexivity.
Defined.

(** An exception stops the run at the file that raises it: when
    [analyze_files] ends with an exception, the aggregator holds exactly
    what a completed run over the files before the raising one leaves, and
    nothing of the raising file or of the files after it. *)
Theorem analyze_files_stops_at_exception files m0 e m :
  MultiFileTaintAnalyzer.analyze_files files m0 = Abort e m →
  ∃ before file_name tree after s,
    files = before ++ (file_name, tree) :: after
    ∧ MultiFileTaintAnalyzer.analyze_files before m0 = Done m
    ∧ TaintAnalyzer.analyze tree TaintAnalyzer.init = Abort e s.
Proof.
  unfold MultiFileTaintAnalyzer.analyze_files. revert m0.
  induction files as [|[file_name tree] files IH]; intros m0 Hrun; simpl in *; [done|].
  destruct (MultiFileTaintAnalyzer.analyze_file file_name tree m0) as [m1|e1 m1] eqn:H1;
    simpl in Hrun.
  - destruct (IH _ Hrun) as (before & f & t & after & s & -> & Hbefore & Ht).
    exists ((file_name, tree) :: before), f, t, after, s.
    split; [done|]. split; [|done]. simpl. by rewrite H1.
  - injection Hrun as <- <-. unfold MultiFileTaintAnalyzer.analyze_file in H1.
    destruct (TaintAnalyzer.analyze tree TaintAnalyzer.init) as [|e2 s] eqn:Ht; [done|].
    injection H1 as <- <-. by exists [], file_name, tree, files, s.
Qed.

Lemma analyze_files_stops_at_exception_witness :
  ∃ before file_name tree after s,
    [("a.py", source_to_sink 1 2); ("b.py", join_call); ("c.py", safe_list)]
    = before ++ (file_name, tree) :: after
    ∧ MultiFileTaintAnalyzer.analyze_files before MultiFileTaintAnalyzer.init
      = Done (MultiFileTaintAnalyzer.absorb "a.py" (local_pass (source_to_sink 1 2))
                MultiFileTaintAnalyzer.init)
    ∧ TaintAnalyzer.analyze tree TaintAnalyzer.init = Abort TypeError s.
Proof.
  apply (analyze_files_stops_at_exception
           [("a.py", source_to_sink 1 2); ("b.py", join_call); ("c.py", safe_list)]
           MultiFileTaintAnalyzer.init).
  vm_compute. reflexivity.
Defined.

(** The per-file table and the global set agree: after a run from the
    initial aggregator over the items of a dict, completed or stopped by an
    exception, a variable is in the global tainted set iff it is in the
    tainted set recorded for some file. *)
Theorem global_taint_is_union_of_files files x :
  NoDup files.*1 →
  let m := final (MultiFileTaintAnalyzer.analyze_files files MultiFileTaintAnalyzer.init) in
  x ∈ MultiFileTaintAnalyzer.tainted_vars m
  ↔ ∃ file_name vars, MultiFileTaintAnalyzer.filewise_taint m !! file_name = Some vars
                      ∧ x ∈ vars.
Proof.
  intros Hdup. simpl.
  assert (∀ m0,
    (x ∈ MultiFileTaintAnalyzer.tainted_vars m0
     ↔ ∃ file_name vars, MultiFileTaintAnalyzer.filewise_taint m0 !! file_name = Some vars
                         ∧ x ∈ vars) →
    (∀ f, f ∈ files.*1 → f ∉ dom (MultiFileTaintAnalyzer.filewise_taint m0)) →
    let m := final (MultiFileTaintAnalyzer.analyze_files files m0) in
    x ∈ MultiFileTaintAnalyzer.tainted_vars m
    ↔ ∃ file_name vars, MultiFileTaintAnalyzer.filewise_taint m !! file_name = Some vars
                        ∧ x ∈ vars) as Hgen.
  { unfold MultiFileTaintAnalyzer.analyze_files.
    induction files as [|[file_name tree] files IH]; intros m0 Hinv Hfresh; [done|].
    simpl in *. apply NoDup_cons in Hdup as [Hnot Hdup].
    destruct (MultiFileTaintAnalyzer.analyze_file file_name tree m0) as [m1|e m1] eqn:H1;
      simpl.
    - apply analyze_file_done in H1 as ->. apply IH; [done| |].
      + simpl. rewrite elem_of_union, Hinv. split.
        * intros [(f & vars & Hf & Hx)|Hx].
          -- exists f, vars. split; [|done]. rewrite lookup_insert_ne; [done|].
             intros <-. apply (Hfresh file_name); [left|]. apply elem_of_dom. eauto.
          -- exists file_name, (TaintAnalyzer.tainted_vars (local_pass tree)).
             by rewrite lookup_insert_eq.
        * intros (f & vars & Hf & Hx). destruct (decide (file_name = f)) as [<-|Hne].
          -- rewrite lookup_insert_eq in Hf. injection Hf as <-. by right.
          -- rewrite lookup_insert_ne in Hf by done. left. eauto.
      + intros f Hf. simpl. rewrite dom_insert_L.
        apply not_elem_of_union. split; [|apply Hfresh; by right].
        intros ->%elem_of_singleton. done.
    - unfold MultiFileTaintAnalyzer.analyze_file in H1.
      destruct (TaintAnalyzer.analyze tree TaintAnalyzer.init); [done|].
      by injection H1 as <- <-. }
  apply Hgen.
  - simpl. split; [by intros ?%elem_of_empty|]. intros (f & vars & Hf & _).
    by rewrite lookup_empty in Hf.
  - intros f _. simpl. rewrite dom_empty_L. apply not_elem_of_empty.
Qed.

Lemma global_taint_is_union_of_files_witness :
  let m := final (MultiFileTaintAnalyzer.analyze_files
                    [("a.py", ast.Module_ file_a); ("b.py", source_to_sink 1 2)]
                    MultiFileTaintAnalyzer.init) in
  "x" ∈ MultiFileTaintAnalyzer.tainted_vars m
  ↔ ∃ file_name vars, MultiFileTaintAnalyzer.filewise_taint m !! file_name = Some vars
                      ∧ "x" ∈ vars.
Proof.
  apply (global_taint_is_union_of_files
           [("a.py", ast.Module_ file_a); ("b.py", source_to_sink 1 2)] "x").
  apply (bool_decide_unpack _). vm_compute. exact I.
Defined.

(** ** The propagation rules *)

Lemma taint_writes_sources s s' :
  taint_writes s s' → TaintAnalyzer.taint_sources s' = TaintAnalyzer.taint_sources s.
Proof.
  induction 1 as [s|s s1 s' Hw _ IH]; [done|]. rewrite IH. by destruct Hw.
Qed.

Lemma taint_targets_done targets s :
  ∃ s', TaintAnalyzer.taint_targets targets s = Done s'
        ∧ taint_writes s s'
        ∧ ∀ y, ast.Name y ∈ targets → y ∈ TaintAnalyzer.tainted_vars s'.
Proof.
  unfold TaintAnalyzer.taint_targets. revert s.
  induction targets as [|target targets IH]; intros s; simpl.
  { exists s. split; [done|]. split; [reflexivity|]. by intros y ?%elem_of_nil. }
  set (s1 := match target with
             | ast.Name id => TaintAnalyzer.add_tainted_var id s
             | _ => s
             end).
  assert (taint_writes s s1) as Hs1.
  { destruct target; try reflexivity. apply rtc_once. constructor. }
  destruct (IH s1) as (s' & Hs' & Hw & Hy). exists s'. split.
  - destruct target; exact Hs'.
  - split; [by etrans|]. intros y [<-|Hin]%elem_of_cons; [|by apply Hy].
    apply (taint_writes_grows s1 s' Hw). simpl. set_solver.
Qed.

Lemma visit_keeps_var parent n s y :
  y ∈ TaintAnalyzer.tainted_vars s →
  y ∈ TaintAnalyzer.tainted_vars (final (TaintAnalyzer.visit parent n s)).
Proof. intros Hy. by apply (taint_writes_grows _ _ (visit_writes parent n s)). Qed.

Lemma for_each_keeps {A S} (Q : S → Prop) (f : A → S → outcome S) (l : list A) (s : S) :
  (∀ x s, Q s → Q (final (f x s))) → Q s → Q (final (for_each f l s)).
Proof.
  intros Hkeep. revert s. induction l as [|x l IH]; intros s Hs; simpl; [done|].
  pose proof (Hkeep x s Hs) as Hx.
  destruct (f x s) as [s1|e s1]; simpl in *; [by apply IH|done].
Qed.

(** The identifiers among the targets of an assignment. *)
Definition target_names (targets : list ast.node) : gset string :=
  list_to_set (omap (λ target, match target with
                               | ast.Name y => Some y
                               | _ => None
                               end) targets).

Lemma elem_of_target_names targets y :
  y ∈ target_names targets ↔ ast.Name y ∈ targets.
Proof.
  unfold target_names. rewrite elem_of_list_to_set, list_elem_of_omap. split.
  - intros (target & Hin & Hy). destruct target; try done. by injection Hy as ->.
  - intros Hin. by exists (ast.Name y).
Qed.

Lemma assign_name_propagates parent targets x y s :
  x ∈ TaintAnalyzer.tainted_vars s → ast.Name y ∈ targets →
  y ∈ TaintAnalyzer.tainted_vars
        (final (TaintAnalyzer.visit parent (ast.Assign targets (ast.Name x)) s)).
Proof.
  intros Hx Hy. simpl. unfold TaintAnalyzer.assign_rules.
  rewrite bool_decide_eq_true_2 by done.
  destruct (taint_targets_done targets s) as (s1 & -> & _ & Hin). simpl.
  pose proof (for_each_keeps (λ s, y ∈ TaintAnalyzer.tainted_vars s)
                (TaintAnalyzer.visit (Some (ast.Assign targets (ast.Name x))))
                targets s1) as Hkeep.
  destruct (for_each _ targets s1) as [s2|e s2]; simpl in *.
  - apply Hkeep; [|by apply Hin]. intros t s'. apply visit_keeps_var.
  - apply Hkeep; [|by apply Hin]. intros t s'. apply visit_keeps_var.
Qed.

Lemma assign_name_only_targets parent targets x y s :
  forallb (all_nodes no_name_target) targets = true →
  y ∈ TaintAnalyzer.tainted_vars
        (final (TaintAnalyzer.visit parent (ast.Assign targets (ast.Name x)) s)) →
  y ∈ TaintAnalyzer.tainted_vars s ∨ ast.Name y ∈ targets.
Proof.
  intros Hflat. rewrite forallb_forall in Hflat.
  apply (writes_from_vars (λ y, ast.Name y ∈ targets) (λ _, True) (λ _ _, True)).
  simpl. set (n := ast.Assign targets (ast.Name x)).
  apply (then_final (writes_from _ _ _)); [|intros s'; reflexivity].
  apply (then_final (writes_from _ _ _)).
  - eapply writes_from_weaken; [| | |apply assign_rules_from]; done.
  - intros s'. apply (for_each_final (writes_from _ _ _)). intros c Hc s1.
    eapply writes_from_weaken; [| | |apply (visit_writes_from (Some n) c s1)]; try done.
    intros z [(p0 & [= <-] & (t & v & [= <- _] & Hz))|(d & Hd & Hz)]; [done|].
    exfalso. eapply no_name_target_spec; [|exact Hz].
    eapply all_nodes_spec; [|exact Hd]. by apply Hflat, list_elem_of_In.
Qed.

(** Assignment of a tainted identifier: after the visit of
    [t1 = ... = tk = x] in a state in which [x] is tainted, whether the
    visit completes or not, every target that is an identifier is tainted;
    and targets of other shapes (attributes, subscripts, tuples) add no
    name: when no target has an assignment to an identifier nested in it,
    as in every parsed tree, the tainted variables are exactly those from
    before together with the identifier targets. *)
Theorem assignment_propagates_taint parent targets x s :
  x ∈ TaintAnalyzer.tainted_vars s →
  forallb (all_nodes no_name_target) targets = true →
  TaintAnalyzer.tainted_vars
    (final (TaintAnalyzer.visit parent (ast.Assign targets (ast.Name x)) s))
  = TaintAnalyzer.tainted_vars s ∪ target_names targets.
Proof.
  intros Hx Hflat. apply set_eq. intros y.
  rewrite elem_of_union, elem_of_target_names. split.
  - by apply assign_name_only_targets.
  - intros [Hy|Hy]; [by apply visit_keeps_var|by apply assign_name_propagates].
Qed.

Lemma assignment_propagates_taint_witness :
  TaintAnalyzer.tainted_vars
    (final (TaintAnalyzer.visit None
              (ast.Assign [ast.Attribute (ast.Name "o") "f"; ast.Name "copy";
                           ast.Subscript (ast.Name "d") (ast.Str "k")]
                 (ast.Name "x"))
              (TaintAnalyzer.add_tainted_var "x" TaintAnalyzer.init)))
  = TaintAnalyzer.tainted_vars (TaintAnalyzer.add_tainted_var "x" TaintAnalyzer.init)
    ∪ target_names [ast.Attribute (ast.Name "o") "f"; ast.Name "copy";
                    ast.Subscript (ast.Name "d") (ast.Str "k")].
Proof.
  apply assignment_propagates_taint.
  - apply (bool_decide_unpack _). vm_compute. exact I.
  - reflexivity.
Defined.

(** Assignment of a call of a taint source or of a tainted function: when
    the visit of [t1 = ... = tk = f(...)] completes and the resolved name of
    [f] is a taint source or is in the tainted-functions table at the start,
    every target that is an identifier is tainted afterwards. *)
Theorem source_call_taints_targets parent targets func args keywords lineno callname y s s' :
  TaintAnalyzer.visit parent
    (ast.Assign targets (ast.Call func args keywords lineno)) s = Done s' →
  callname_of func = Ok callname →
  callname ∈ TaintAnalyzer.taint_sources s
  ∨ callname ∈ dom (TaintAnalyzer.tainted_functions s) →
  ast.Name y ∈ targets →
  y ∈ TaintAnalyzer.tainted_vars s'.
Proof.
  intros Hvisit Hname Hsrc Hy. simpl in Hvisit.
  set (n := ast.Assign targets (ast.Call func args keywords lineno)) in *.
  change (TaintAnalyzer.assign_rules targets (ast.Call func args keywords lineno) s)
    with (Done s) in Hvisit.
  simpl in Hvisit.
  pose proof (for_each_final taint_writes (TaintAnalyzer.visit (Some n)) targets s
                (λ c _ s0, visit_writes (Some n) c s0)) as Hw1.
  destruct (for_each (TaintAnalyzer.visit (Some n)) targets s) as [s1|] eqn:Hs1; [|done].
  simpl in Hvisit, Hw1. rewrite Hname in Hvisit.
  pose proof (taint_writes_sources _ _ Hw1) as Hsources.
  pose proof (taint_writes_grows _ _ Hw1) as (_ & Hfuns & _).
  destruct (taint_targets_done targets s1) as (s2 & Hs2 & Hw2 & Hin2).
  destruct Hsrc as [Hsrc|Hfun].
  - unfold TaintAnalyzer.source_rule in Hvisit.
    rewrite bool_decide_eq_true_2 in Hvisit by congruence.
    cbn [TaintAnalyzer.taint_parent_targets n] in Hvisit. rewrite Hs2 in Hvisit.
    cbn [then_] in Hvisit.
    assert (taint_writes s2 s') as Hw.
    { replace s' with (final (Done s')) by done. rewrite <- Hvisit.
      split_seq; first [apply sink_rule_writes|apply propagation_rule_writes
                       |apply visit_writes
                       |apply (for_each_final taint_writes); intros; apply visit_writes]. }
    apply (taint_writes_grows _ _ Hw). by apply Hin2.
  - destruct (TaintAnalyzer.source_rule (Some n) callname s1) as [sa|] eqn:Hsa;
      [|done].
    pose proof (source_rule_writes (Some n) callname s1) as Hwa. rewrite Hsa in Hwa.
    cbn [then_ final] in Hvisit, Hwa.
    destruct (TaintAnalyzer.sink_rule callname args lineno sa) as [sb|] eqn:Hsb; [|done].
    pose proof (sink_rule_writes callname args lineno sa) as Hwb. rewrite Hsb in Hwb.
    cbn [then_ final] in Hvisit, Hwb.
    pose proof (taint_writes_grows _ _ Hwa) as (_ & Hfa & _).
    pose proof (taint_writes_grows _ _ Hwb) as (_ & Hfb & _).
    unfold TaintAnalyzer.propagation_rule in Hvisit.
    rewrite bool_decide_eq_true_2 in Hvisit by (by apply Hfb, Hfa, Hfuns).
    cbn [TaintAnalyzer.taint_parent_targets n] in Hvisit.
    destruct (taint_targets_done targets sb) as (sc & Hsc & Hwc & Hinc).
    rewrite Hsc in Hvisit. cbn [then_] in Hvisit.
    assert (taint_writes sc s') as Hw.
    { replace s' with (final (Done s')) by done. rewrite <- Hvisit.
      split_seq; first [apply visit_writes
                       |apply (for_each_final taint_writes); intros; apply visit_writes]. }
    apply (taint_writes_grows _ _ Hw). by apply Hinc.
Qed.

Lemma source_call_taints_targets_witness :
  ∃ s', TaintAnalyzer.visit None
          (ast.Assign [ast.Name "home"]
             (ast.Call (attribute_chain "os" ["environ"; "get"]) [ast.Str "HOME"] [] 1))
          TaintAnalyzer.init = Done s'
        ∧ "home" ∈ TaintAnalyzer.tainted_vars s'.
Proof.
  eexists. split; [vm_compute; reflexivity|].
  eapply (source_call_taints_targets None [ast.Name "home"]
            (attribute_chain "os" ["environ"; "get"]) [ast.Str "HOME"] [] 1
            "os.environ.get" "home" TaintAnalyzer.init).
  - vm_compute. reflexivity.
  - reflexivity.
  - left. apply (bool_decide_unpack _). vm_compute. exact I.
  - left.
Defined.

Lemma for_each_reach_done {A S} (I Q : S → Prop) (f : A → S → outcome S)
    (l : list A) (c : A) (s s' : S) :
  for_each f l s = Done s' → c ∈ l → I s →
  (∀ x s1 s2, I s1 → f x s1 = Done s2 → I s2) →
  (∀ x s1 s2, Q s1 → f x s1 = Done s2 → Q s2) →
  (∀ s1 s2, I s1 → f c s1 = Done s2 → Q s2) →
  Q s'.
Proof.
  intros Hrun Hc Hs HI HQ Hreach.
  assert (∀ l s, for_each f l s = Done s' → Q s → Q s') as Hrest.
  { clear Hrun Hc Hs s l. induction l as [|x l IH]; intros s Hrun Hs; simpl in Hrun.
    - by injection Hrun as <-.
    - destruct (f x s) as [s1|] eqn:Hx; [|done]. eapply IH; [done|]. by eapply HQ. }
  revert s Hrun Hs. induction l as [|x l IH]; intros s Hrun Hs;
    [by apply elem_of_nil in Hc|].
  simpl in Hrun. destruct (f x s) as [s1|] eqn:Hx; [|done]. simpl in Hrun.
  apply elem_of_cons in Hc as [->|Hc].
  - eapply Hrest; [done|]. by eapply Hreach.
  - eapply IH; [done|done|]. by eapply HI.
Qed.

(** Discovery of a tainted function: when the visit of [def f] completes
    and some [return] at or below the definition (in a nested function
    too) returns an expression that tests tainted in the state the visit
    starts in, [f] is in the tainted-functions table afterwards.  The test
    is made before the body is traversed, so taint that arises inside the
    body does not count. *)
Theorem tainted_return_marks_function
    parent f args body decorator_list returns expr s s' :
  let n := ast.FunctionDef f args body decorator_list returns in
  TaintAnalyzer.visit parent n s = Done s' →
  descendant (ast.Return (Some expr)) n →
  TaintAnalyzer._is_tainted s expr = Ok true →
  f ∈ dom (TaintAnalyzer.tainted_functions s').
Proof.
  intros n Hvisit Hret Htaint. simpl in Hvisit. fold n in Hvisit.
  destruct (TaintAnalyzer.function_rule f n s) as [s1|] eqn:Hrule; [|done].
  assert (f ∈ dom (TaintAnalyzer.tainted_functions s1)) as Hf1.
  { unfold TaintAnalyzer.function_rule in Hrule.
    eapply (for_each_reach_done (taint_writes s)
              (λ s, f ∈ dom (TaintAnalyzer.tainted_functions s)) _ _
              (ast.Return (Some expr))); [exact Hrule| |reflexivity| | |].
    - by apply walk_elem.
    - intros child sa sb Hsa Hstep. etrans; [exact Hsa|].
      destruct child; try (injection Hstep as <-; reflexivity).
      destruct (TaintAnalyzer._is_tainted_opt sa value) as [[]|]; [| |done];
        injection Hstep as <-; [|reflexivity]. apply rtc_once. constructor.
    - intros child sa sb Hsa Hstep.
      destruct child; try (by injection Hstep as <-).
      destruct (TaintAnalyzer._is_tainted_opt sa value) as [[]|]; [| |done];
        injection Hstep as <-; [|done]. simpl. rewrite dom_insert_L. set_solver.
    - intros sa sb Hsa Hstep. simpl in Hstep.
      destruct (is_tainted_grows s sa expr true) as (b & Hb & Htrue);
        [by apply taint_writes_grows|done|].
      rewrite Hb, Htrue in Hstep by done. injection Hstep as <-.
      simpl. rewrite dom_insert_L. set_solver. }
  assert (taint_writes s1 s') as Hw.
  { replace s' with (final (Done s')) by done. rewrite <- Hvisit.
    split_seq; first [reflexivity|apply visit_writes
                     |apply (for_each_final taint_writes); intros; apply visit_writes
                     |idtac].
    destruct returns; simpl; [apply visit_writes|reflexivity]. }
  by apply (taint_writes_grows _ _ Hw).
Qed.

Lemma tainted_return_marks_function_witness :
  ∃ s', TaintAnalyzer.visit None
          (ast.FunctionDef "leak" (ast.Other []) [ast.Return (Some (ast.Name "s"))] [] None)
          (TaintAnalyzer.add_tainted_var "s" TaintAnalyzer.init) = Done s'
        ∧ "leak" ∈ dom (TaintAnalyzer.tainted_functions s').
Proof.
  eexists. split; [vm_compute; reflexivity|].
  eapply (tainted_return_marks_function None "leak" (ast.Other [])
            [ast.Return (Some (ast.Name "s"))] [] None (ast.Name "s")
            (TaintAnalyzer.add_tainted_var "s" TaintAnalyzer.init)).
  - vm_compute. reflexivity.
  - eapply descendant_child; [|constructor]. right. left.
  - vm_compute. reflexivity.
Defined.
